(** * The chat page of the Next.js front end ([frontend/app/page.tsx])

    A shallow embedding of the [Home] component: its state cells, the three
    effects, the WebSocket handlers and [sendMessage], together with the
    small part of the browser and of React they run on (local storage,
    [fetch], the WebSocket objects, the re-run of effects when a dependency
    changes).  Every observable action is appended to a trace, so that
    statements about what is requested, stored, opened, closed or sent, and
    in which order, are statements about a list.

    What is taken from the platform rather than from the file:
    - the event loop runs one handler at a time, to completion;
    - React runs the effects of a mount once, in the order of the source,
      and on a change of a dependency runs the cleanup of the previous run
      before the effect bodies;
    - a WebSocket delivers messages only while it is OPEN, [close()] moves
      it to CLOSING at once, and a failure fires [error] and then [close];
    - the service answers as its contract says: an integer
      [conversation_id], records with an integer [id] and strings [sender]
      and [content]. *)

From Stdlib Require Import ZArith NArith String Ascii List Lia DecimalString.
From stdpp Require Import base option list gmap.
Import ListNotations.

Local Open Scope Z_scope.

(** ** JavaScript values used by the page *)

Module Js.

(** A JavaScript string is a sequence of UTF-16 code units. *)
Abbreviation code_unit := N.
Abbreviation jsstring := (list N).

(** String literals of the source (all of them ASCII). *)
Definition lit (s : string) : jsstring :=
  List.map N_of_ascii (list_ascii_of_string s).

(** ECMAScript [WhiteSpace] and [LineTerminator] code points: what
    [String.prototype.trim] strips and what [parseInt] skips. *)
Definition is_white_space (c : code_unit) : bool :=
  ((c =? 0x0009) || (c =? 0x000B) || (c =? 0x000C) || (c =? 0x0020)
   || (c =? 0x00A0) || (c =? 0xFEFF)
   || (c =? 0x1680) || ((0x2000 <=? c) && (c <=? 0x200A))
   || (c =? 0x202F) || (c =? 0x205F) || (c =? 0x3000)
   || (c =? 0x000A) || (c =? 0x000D) || (c =? 0x2028) || (c =? 0x2029))%N.

Fixpoint trimStart (s : jsstring) : jsstring :=
  match s with
  | c :: s' => if is_white_space c then trimStart s' else s
  | [] => []
  end.

Definition trimEnd (s : jsstring) : jsstring := rev (trimStart (rev s)).

(** [s.trim()] *)
Definition trim (s : jsstring) : jsstring := trimEnd (trimStart s).

(** Truthiness of a string: every string but the empty one. *)
Definition truthy (s : jsstring) : bool :=
  match s with [] => false | _ :: _ => true end.

(** The numbers the page handles: conversation identifiers, which the
    service hands out as integers, and [NaN], which [parseInt] produces.
    (Integers are kept exact; the rounding of doubles beyond 2^53 and the
    sign of zero are not represented.) *)
Inductive number := NaN | Num (z : Z).

#[export] Instance number_eq_dec : EqDecision number.
Proof. solve_decision. Defined.

Definition is_digit (c : code_unit) : bool := ((48 <=? c) && (c <=? 57))%N.

(** The longest prefix of decimal digits, read as a number; [None] when the
    prefix is empty. *)
Fixpoint digits_value (acc : option Z) (s : jsstring) : option Z :=
  match s with
  | c :: s' =>
      if is_digit c
      then digits_value (Some (10 * default 0 acc + Z.of_N (c - 48))) s'
      else acc
  | [] => acc
  end.

(** [parseInt(s, 10)]: leading white space is skipped, one sign is read,
    then the longest run of decimal digits; no digit gives [NaN]. *)
Definition parseInt10 (s : jsstring) : number :=
  let s1 := trimStart s in
  let sign :=
    match s1 with
    | c :: _ => if (c =? 45)%N then -1 else 1
    | [] => 1
    end in
  let s2 :=
    match s1 with
    | c :: r => if ((c =? 45) || (c =? 43))%N then r else s1
    | [] => s1
    end in
  match digits_value None s2 with
  | None => NaN
  | Some mathInt => Num (sign * mathInt)
  end.

(** [String(n)] and the [${n}] of a template literal. *)
Definition String_ (n : number) : jsstring :=
  match n with
  | NaN => lit "NaN"
  | Num z => lit (NilZero.string_of_int (Z.to_int z))
  end.

(** [Object.is] on [number | null], React's comparison of dependencies. *)
Definition Object_is (a b : option number) : bool := bool_decide (a = b).

Fixpoint strip_prefix (p s : jsstring) : option jsstring :=
  match p, s with
  | [], _ => Some s
  | a :: p', b :: s' => if (a =? b)%N then strip_prefix p' s' else None
  | _ :: _, [] => None
  end.

(** [s.replace(/^http/, "ws")] *)
Definition replace_http_ws (s : jsstring) : jsstring :=
  match strip_prefix (lit "http") s with
  | Some rest => lit "ws" ++ rest
  | None => s
  end.

End Js.
Import Js.

(** ** Data of the page *)

Inductive Sender := user | bot.

(** [type Message = { id?: number; sender: "user" | "bot"; content: string }] *)
Record Message := { id : option Z; sender : Sender; content : jsstring }.

(** A record of [GET /conversations/{id}/messages], the [m] of [msgs.map]. *)
Record ServerMessage := { m_id : Z; m_sender : jsstring; m_content : jsstring }.

(** [WebSocket.readyState] *)
Inductive ReadyState := CONNECTING | OPEN | CLOSING | CLOSED.

#[export] Instance ReadyState_eq_dec : EqDecision ReadyState.
Proof. solve_decision. Defined.

(** A WebSocket object.  The page refers to it from [socketRef.current] and
    from the cleanup closure of the third effect; both hold a handle into
    the store [sockets], so that a change of [readyState] is seen by both. *)
Record WebSocket := { url : jsstring; readyState : ReadyState }.

(** The two promise chains of the page. *)
Inductive Callback := OnCreated | OnHistory.

Inductive Method := POST | GET.

(** A request started by [fetch] and whether its promise has settled. *)
Record Fetch := { method : Method; target : jsstring; chain : Callback;
                  settled : bool }.

(** What a settled request hands to its chain: the decoded body, or a
    rejection ([fetch] failed, or [res.json()] could not decode). *)
Inductive Response :=
| Created (conversation_id : Z)
| Messages (msgs : list ServerMessage)
| Rejected.

(** Observable actions, in the order they happen. *)
Inductive Event :=
| ConsoleLog (label : jsstring)
| ConsoleError (label : jsstring)
| Alert (text : jsstring)
| FetchCall (m : Method) (u : jsstring)
| StorageSetItem (key value : jsstring)
| SetConversationId (v : option number)
| NewWebSocket (ws : nat) (u : jsstring)
| WsClose (ws : nat)
| WsSend (ws : nat) (data : jsstring).

Inductive Phase := Initial | Mounted | Dismissed.

#[export] Instance Phase_eq_dec : EqDecision Phase.
Proof. solve_decision. Defined.

(** The state cells of [Home], React's bookkeeping for its effects, and the
    browser objects the page touches.  ([hasCreatedConvo] is left out: the
    component declares it and never reads or writes it.) *)
Record Page := {
  (* useState / useRef of Home *)
  conversationId : option number;
  messages : list Message;
  input : jsstring;
  socketRef : option nat;
  (* React *)
  phase : Phase;
  deps : option number;     (* conversationId of the render whose effects ran last *)
  cleanup : option nat;     (* the [ws] held by the cleanup the third effect returned *)
  (* browser *)
  baseUrl : jsstring;
  localStorage : gmap jsstring jsstring;
  sockets : list WebSocket;
  fetches : list Fetch;
  trace : list Event
}.

(** [process.env.NEXT_PUBLIC_API_URL || "http://127.0.0.1:8000"] *)
Definition resolve_baseUrl (env : option jsstring) : jsstring :=
  match env with
  | Some s => if truthy s then s else lit "http://127.0.0.1:8000"
  | None => lit "http://127.0.0.1:8000"
  end.

(** The page before its first render: [useState(null)], [useState([])],
    [useState("")], [useRef(null)]. *)
Definition init (env : option jsstring) (storage : gmap jsstring jsstring) : Page :=
  {| conversationId := None; messages := []; input := []; socketRef := None;
     phase := Initial; deps := None; cleanup := None;
     baseUrl := resolve_baseUrl env; localStorage := storage;
     sockets := []; fetches := []; trace := [] |}.

(** *** Field updates *)

Definition Eff := Page -> Page.

Definition seq (a b : Eff) : Eff := fun p => b (a p).
Notation "a >> b" := (seq a b) (at level 62, right associativity).
Definition skip : Eff := fun p => p.

Definition set_conversationId (v : option number) : Eff := fun p =>
  Build_Page v (messages p) (input p) (socketRef p) (phase p) (deps p)
    (cleanup p) (baseUrl p) (localStorage p) (sockets p) (fetches p) (trace p).
Definition set_messages (f : list Message -> list Message) : Eff := fun p =>
  Build_Page (conversationId p) (f (messages p)) (input p) (socketRef p)
    (phase p) (deps p) (cleanup p) (baseUrl p) (localStorage p) (sockets p)
    (fetches p) (trace p).
Definition set_input (v : jsstring) : Eff := fun p =>
  Build_Page (conversationId p) (messages p) v (socketRef p) (phase p)
    (deps p) (cleanup p) (baseUrl p) (localStorage p) (sockets p) (fetches p)
    (trace p).
Definition set_socketRef (v : option nat) : Eff := fun p =>
  Build_Page (conversationId p) (messages p) (input p) v (phase p) (deps p)
    (cleanup p) (baseUrl p) (localStorage p) (sockets p) (fetches p) (trace p).
Definition set_phase (v : Phase) : Eff := fun p =>
  Build_Page (conversationId p) (messages p) (input p) (socketRef p) v
    (deps p) (cleanup p) (baseUrl p) (localStorage p) (sockets p) (fetches p)
    (trace p).
Definition set_deps (v : option number) : Eff := fun p =>
  Build_Page (conversationId p) (messages p) (input p) (socketRef p)
    (phase p) v (cleanup p) (baseUrl p) (localStorage p) (sockets p)
    (fetches p) (trace p).
Definition set_cleanup (v : option nat) : Eff := fun p =>
  Build_Page (conversationId p) (messages p) (input p) (socketRef p)
    (phase p) (deps p) v (baseUrl p) (localStorage p) (sockets p) (fetches p)
    (trace p).
Definition set_localStorage (v : gmap jsstring jsstring) : Eff := fun p =>
  Build_Page (conversationId p) (messages p) (input p) (socketRef p)
    (phase p) (deps p) (cleanup p) (baseUrl p) v (sockets p) (fetches p)
    (trace p).
Definition set_sockets (v : list WebSocket) : Eff := fun p =>
  Build_Page (conversationId p) (messages p) (input p) (socketRef p)
    (phase p) (deps p) (cleanup p) (baseUrl p) (localStorage p) v (fetches p)
    (trace p).
Definition set_fetches (v : list Fetch) : Eff := fun p =>
  Build_Page (conversationId p) (messages p) (input p) (socketRef p)
    (phase p) (deps p) (cleanup p) (baseUrl p) (localStorage p) (sockets p) v
    (trace p).
Definition emit (e : Event) : Eff := fun p =>
  Build_Page (conversationId p) (messages p) (input p) (socketRef p)
    (phase p) (deps p) (cleanup p) (baseUrl p) (localStorage p) (sockets p)
    (fetches p) (trace p ++ [e]).

(** *** Browser and React primitives *)

Definition console_log (label : string) : Eff := emit (ConsoleLog (lit label)).
Definition console_error (label : string) : Eff := emit (ConsoleError (lit label)).
Definition alert (text : string) : Eff := emit (Alert (lit text)).

(** [localStorage.getItem(k)]: [None] is [null]. *)
Definition getItem (k : jsstring) (p : Page) : option jsstring :=
  localStorage p !! k.

(** [localStorage.setItem(k, v)] *)
Definition setItem (k v : jsstring) : Eff := fun p =>
  (emit (StorageSetItem k v) >> set_localStorage (<[k := v]> (localStorage p))) p.

(** [fetch(u, {method}).then(...).catch(...)]: the request is issued and
    its chain registered; the chain runs when the promise settles. *)
Definition fetch (m : Method) (u : jsstring) (k : Callback) : Eff := fun p =>
  (emit (FetchCall m u) >>
   set_fetches (fetches p ++ [{| method := m; target := u; chain := k;
                                 settled := false |}])) p.

(** [setConversationId(v)] *)
Definition setConversationId (v : option number) : Eff :=
  emit (SetConversationId v) >> set_conversationId v.

(** [setMessages(f)] with an updater, and [setMessages(l)] with a value. *)
Definition setMessages (f : list Message -> list Message) : Eff := set_messages f.
Definition setInput (v : jsstring) : Eff := set_input v.

(** [new WebSocket(u)]: a fresh object in state CONNECTING; its handle is
    the next free index of the store. *)
Definition new_WebSocket (u : jsstring) (p : Page) : nat * Page :=
  let ws := length (sockets p) in
  (ws, (emit (NewWebSocket ws u) >>
        set_sockets (sockets p ++ [{| url := u; readyState := CONNECTING |}])) p).

Definition with_readyState (r : ReadyState) (s : WebSocket) : WebSocket :=
  {| url := url s; readyState := r |}.

(** A socket is live while it is connecting or open. *)
Definition live (s : WebSocket) : bool :=
  match readyState s with CONNECTING | OPEN => true | _ => false end.

(** The browser moves the socket [ws] to state [r]. *)
Definition set_readyState (ws : nat) (r : ReadyState) : Eff := fun p =>
  set_sockets (alter (with_readyState r) ws (sockets p)) p.

Definition readyState_of (ws : nat) (p : Page) : option ReadyState :=
  readyState <$> sockets p !! ws.

(** What [close()] does to a socket: the closing handshake starts unless the
    socket is already closing or closed. *)
Definition closing (s : WebSocket) : WebSocket :=
  if live s then with_readyState CLOSING s else s.

(** [ws.close()] *)
Definition ws_close (ws : nat) : Eff := fun p =>
  (emit (WsClose ws) >> set_sockets (alter closing ws (sockets p))) p.

(** [ws.send(data)] on an open socket. *)
Definition ws_send (ws : nat) (data : jsstring) : Eff := emit (WsSend ws data).

(** ** The component *)

(** First effect (dependencies [[baseUrl]], so it runs once, at mount):
    resolve the conversation identifier from storage or create one. *)
Definition identity_effect : Eff := fun p =>
  let storedId := getItem (lit "conversationId") p in
  match storedId with
  | Some s =>
      if truthy s
      then (console_log "Found existing conversation ID in localStorage:" >>
            setConversationId (Some (parseInt10 s))) p
      else (console_log "No conversation in localStorage, creating new..." >>
            fetch POST (baseUrl p ++ lit "/conversations/new") OnCreated) p
  | None =>
      (console_log "No conversation in localStorage, creating new..." >>
       fetch POST (baseUrl p ++ lit "/conversations/new") OnCreated) p
  end.

(** [.then((data) => ...)] of the creation request. *)
Definition created_then (conversation_id : Z) : Eff :=
  let newId := Num conversation_id in
  setItem (lit "conversationId") (String_ newId) >>
  setConversationId (Some newId) >>
  console_log "Created conversation id:".

(** [.catch(...)] of the creation request. *)
Definition created_catch : Eff :=
  console_error "Failed to create conversation:".

(** Second effect (dependencies [[conversationId, baseUrl]]): fetch the
    history.  [conversationId] is the value of the render the effect
    belongs to. *)
Definition history_effect (conversationId : option number) : Eff := fun p =>
  match conversationId with
  | None => p
  | Some cid =>
      (console_log "Fetching messages for convo:" >>
       fetch GET (baseUrl p ++ lit "/conversations/" ++ String_ cid
                    ++ lit "/messages") OnHistory) p
  end.

(** The function given to [msgs.map]. *)
Definition load_message (m : ServerMessage) : Message :=
  {| id := Some (m_id m);
     sender := if bool_decide (m_sender m = lit "user") then user else bot;
     content := m_content m |}.

(** [.then((msgs) => ...)] of the history request. *)
Definition history_then (msgs : list ServerMessage) : Eff :=
  let loaded := List.map load_message msgs in
  console_log "Loaded messages from DB:" >>
  setMessages (fun _ => loaded).

(** [.catch(...)] of the history request. *)
Definition history_catch : Eff :=
  console_error "Failed to fetch conversation messages:".

(** [ws.onopen], [ws.onmessage], [ws.onclose], [ws.onerror] *)
Definition onopen : Eff := console_log "WebSocket connected to conversation:".

Definition onmessage (data : jsstring) : Eff :=
  console_log "WS received:" >>
  let botMsg := {| id := None; sender := bot; content := data |} in
  setMessages (fun prev => prev ++ [botMsg]).

Definition onclose : Eff := console_log "WebSocket closed".
Definition onerror : Eff := console_error "WebSocket error".

(** Third effect (dependencies [[conversationId, baseUrl]]): open the
    socket and return the cleanup that closes it.  With no identifier the
    effect returns nothing, so there is no cleanup. *)
Definition socket_effect (conversationId : option number) : Eff := fun p =>
  match conversationId with
  | None => set_cleanup None p
  | Some cid =>
      let wsUrl := replace_http_ws (baseUrl p)
                     ++ lit "/ws/chat?conversation_id=" ++ String_ cid in
      let p := console_log "Opening WebSocket for conversation:" p in
      let '(ws, p) := new_WebSocket wsUrl p in
      (set_socketRef (Some ws) >> set_cleanup (Some ws)) p
  end.

(** The cleanup of the third effect: [() => { ...; ws.close(); }]. *)
Definition socket_cleanup (ws : nat) : Eff :=
  console_log "Cleaning up WebSocket..." >> ws_close ws.

Definition run_cleanup : Eff := fun p =>
  match cleanup p with
  | Some ws => (socket_cleanup ws >> set_cleanup None) p
  | None => p
  end.

(** The guard of [sendMessage], negated: [socketRef.current] is set and its
    [readyState] is [WebSocket.OPEN]. *)
Definition socket_open (p : Page) : bool :=
  match socketRef p with
  | Some ws => bool_decide (readyState_of ws p = Some OPEN)
  | None => false
  end.

(** [sendMessage] *)
Definition sendMessage : Eff := fun p =>
  match socketRef p with
  | Some ws =>
      if bool_decide (readyState_of ws p = Some OPEN) then
        let text := trim (input p) in
        if truthy text then
          (console_log "Sending user message:" >>
           setMessages (fun prev =>
             prev ++ [{| id := None; sender := user; content := text |}]) >>
           ws_send ws text >>
           setInput []) p
        else p
      else alert "WebSocket not connected!" p
  | None => alert "WebSocket not connected!" p
  end.

(** ** React and the event loop *)

(** After a handler has run, React renders again and re-runs the effects
    whose dependencies changed: first the cleanup of the previous run, then
    the effect bodies in the order of the source.  [baseUrl] never changes,
    so only [conversationId] is compared. *)
Definition rerun_effects (cid : option number) : Eff :=
  run_cleanup >> history_effect cid >> socket_effect cid >> set_deps cid.

Definition commit : Eff := fun p =>
  match phase p with
  | Mounted =>
      let cid := conversationId p in
      if Object_is (deps p) cid then p else rerun_effects cid p
  | _ => p
  end.

(** What the outside can make happen. *)
Inductive Input :=
| Mount
| Unmount
| Settle (f : nat) (r : Response)
| WsOpened (ws : nat)
| WsMessage (ws : nat) (data : jsstring)
| WsFailed (ws : nat)
| WsClosed (ws : nat)
| Typing (text : jsstring)
| Send
| Rebind (v : option number).

Definition settled_now (r : Fetch) : Fetch :=
  {| method := method r; target := target r; chain := chain r;
     settled := true |}.

Definition settle (f : nat) : Eff := fun p =>
  set_fetches (alter settled_now f (fetches p)) p.

(** One turn of the event loop: the handler of the event, to completion.
    - [Mount]: first render; the three effects run with the initial state.
    - [Unmount]: the cleanups run.
    - [Settle]: a pending request settles and its chain runs (after the
      view is gone the callbacks still run; React drops their state
      updates, and nothing reads the cells the model keeps writing).
    - [WsOpened] ... [WsClosed]: the browser changes [readyState] and fires
      the handler; a message is delivered only on an open socket, and a
      failure fires [error] and then [close].
    - [Typing], [Send]: the input box and the button (or Enter).
    - [Rebind]: any other update of [conversationId]; the page has none,
      the event is there so that the teardown rule can be stated for every
      change of the identifier. *)
Definition handle (i : Input) : Eff := fun p =>
  match i with
  | Mount =>
      match phase p with
      | Initial =>
          (set_phase Mounted >> identity_effect >> history_effect None >>
           socket_effect None) p
      | _ => p
      end
  | Unmount =>
      match phase p with
      | Mounted => (run_cleanup >> set_phase Dismissed) p
      | _ => p
      end
  | Settle f r =>
      match fetches p !! f with
      | Some rq =>
          if settled rq then p
          else match chain rq, r with
               | OnCreated, Created n => (settle f >> created_then n) p
               | OnCreated, Rejected => (settle f >> created_catch) p
               | OnHistory, Messages l => (settle f >> history_then l) p
               | OnHistory, Rejected => (settle f >> history_catch) p
               | _, _ => p
               end
      | None => p
      end
  | WsOpened ws =>
      match readyState_of ws p with
      | Some CONNECTING => (set_readyState ws OPEN >> onopen) p
      | _ => p
      end
  | WsMessage ws data =>
      match readyState_of ws p with
      | Some OPEN => onmessage data p
      | _ => p
      end
  | WsFailed ws =>
      match readyState_of ws p with
      | Some CLOSED | None => p
      | Some _ => (set_readyState ws CLOSED >> onerror >> onclose) p
      end
  | WsClosed ws =>
      match readyState_of ws p with
      | Some CLOSED | None => p
      | Some _ => (set_readyState ws CLOSED >> onclose) p
      end
  | Typing text =>
      match phase p with Mounted => setInput text p | _ => p end
  | Send =>
      match phase p with Mounted => sendMessage p | _ => p end
  | Rebind v =>
      match phase p with Mounted => setConversationId v p | _ => p end
  end.

Definition step (p : Page) (i : Input) : Page := commit (handle i p).

Definition run (p : Page) (evs : list Input) : Page := fold_left step evs p.

(** ** Observations on traces and stores *)

Definition is_creation_request (e : Event) : bool :=
  match e with FetchCall POST _ => true | _ => false end.

Definition creation_requests (tr : list Event) : nat :=
  length (List.filter is_creation_request tr).

Definition is_request (e : Event) : bool :=
  match e with FetchCall _ _ => true | _ => false end.

Definition live_count (p : Page) : nat := length (List.filter live (sockets p)).

(** Reading a trace from the left with the socket that was opened and not
    yet closed by the page: a socket may be opened only when there is none,
    and the one closed is the one that was opened.  [None] when the trace
    breaks that discipline. *)
Fixpoint teardown_discipline (cur : option nat) (tr : list Event)
  : option (option nat) :=
  match tr with
  | [] => Some cur
  | NewWebSocket ws _ :: tr' =>
      match cur with
      | None => teardown_discipline (Some ws) tr'
      | Some _ => None
      end
  | WsClose ws :: tr' =>
      if bool_decide (cur = Some ws) then teardown_discipline None tr' else None
  | _ :: tr' => teardown_discipline cur tr'
  end.

Definition sent_frames (tr : list Event) : list jsstring :=
  omap (fun e => match e with WsSend _ d => Some d | _ => None end) tr.

Definition is_open_call (e : Event) : bool :=
  match e with NewWebSocket _ _ => true | _ => false end.

Definition is_bind (e : Event) : bool :=
  match e with SetConversationId _ => true | _ => false end.

(** Sockets opened, and updates of the identifier, in a trace. *)
Definition opened (tr : list Event) : nat := length (List.filter is_open_call tr).
Definition binds (tr : list Event) : nat := length (List.filter is_bind tr).

(** The storage entry counts as a cached identifier when [if (storedId)]
    takes the first branch: the key is there and its value is not empty. *)
Definition cached (storage : gmap jsstring jsstring) : bool :=
  match storage !! lit "conversationId" with
  | Some s => truthy s
  | None => false
  end.

Definition history_url (p : Page) (cid : number) : jsstring :=
  baseUrl p ++ lit "/conversations/" ++ String_ cid ++ lit "/messages".

Definition socket_url (p : Page) (cid : number) : jsstring :=
  replace_http_ws (baseUrl p) ++ lit "/ws/chat?conversation_id=" ++ String_ cid.

(** What a re-run of the effects is expected to add to the trace: the cleanup
    of the socket [c] of the previous run, the history request and the new
    socket for the identifier [cid]. *)
Definition cleanup_events (c : option nat) : list Event :=
  match c with
  | Some ws => [ConsoleLog (lit "Cleaning up WebSocket..."); WsClose ws]
  | None => []
  end.

Definition history_events (p : Page) (cid : option number) : list Event :=
  match cid with
  | Some c => [ConsoleLog (lit "Fetching messages for convo:");
               FetchCall GET (history_url p c)]
  | None => []
  end.

Definition socket_events (p : Page) (cid : option number) : list Event :=
  match cid with
  | Some c => [ConsoleLog (lit "Opening WebSocket for conversation:");
               NewWebSocket (length (sockets p)) (socket_url p c)]
  | None => []
  end.

Definition closed_by_cleanup (c : option nat) (l : list WebSocket)
  : list WebSocket :=
  match c with
  | Some ws => alter closing ws l
  | None => l
  end.

Definition pending (p : Page) (f : nat) (k : Callback) : Prop :=
  exists rq, fetches p !! f = Some rq /\ chain rq = k /\ settled rq = false.

Definition bot_message (data : jsstring) : Message :=
  {| id := None; sender := bot; content := data |}.

Definition user_message (text : jsstring) : Message :=
  {| id := None; sender := user; content := text |}.

(** A locally echoed message: written by the user, without a server id. *)
Definition is_echo (m : Message) : Prop := id m = None /\ sender m = user.

Definition is_history_load (i : Input) : bool :=
  match i with Settle _ (Messages _) => true | _ => false end.

(** A page as some session can reach it. *)
Definition reachable (p : Page) : Prop :=
  exists env storage evs, p = run (init env storage) evs.

(** Only the socket [c] may be live in the store [l]. *)
Definition only_live (c : option nat) (l : list WebSocket) : Prop :=
  forall ws s, l !! ws = Some s -> live s = true -> c = Some ws.

(** What holds of the page between two turns of the event loop, and, but
    for [deps = conversationId], also between a handler and the commit that
    follows it. *)
Record loop_inv (p : Page) : Prop := {
  inv_initial : phase p = Initial ->
      trace p = [] /\ sockets p = [] /\ fetches p = [] /\
      conversationId p = None;
  inv_initial_deps : phase p = Initial -> deps p = None;
  inv_cleanup_deps : phase p = Mounted -> (cleanup p = None <-> deps p = None);
  inv_dismissed : phase p = Initial \/ phase p = Dismissed -> cleanup p = None;
  inv_live : only_live (cleanup p) (sockets p);
  inv_discipline : teardown_discipline None (trace p) = Some (cleanup p);
  inv_opened : (opened (trace p)
      + (if bool_decide (phase p = Mounted /\ deps p <> conversationId p)
         then 1 else 0) <= binds (trace p))%nat;
  inv_frames : Forall (fun d => d <> []) (sent_frames (trace p));
  inv_echo : Forall (fun m => is_echo m -> content m <> []) (messages p)
}.

Definition committed (p : Page) : Prop :=
  phase p = Mounted -> deps p = conversationId p.

(** ** Further observations *)

(** The code units of a decimal numeral. *)
Fixpoint uint_units (d : Decimal.uint) : jsstring :=
  match d with
  | Decimal.Nil => []
  | Decimal.D0 d => 48%N :: uint_units d
  | Decimal.D1 d => 49%N :: uint_units d
  | Decimal.D2 d => 50%N :: uint_units d
  | Decimal.D3 d => 51%N :: uint_units d
  | Decimal.D4 d => 52%N :: uint_units d
  | Decimal.D5 d => 53%N :: uint_units d
  | Decimal.D6 d => 54%N :: uint_units d
  | Decimal.D7 d => 55%N :: uint_units d
  | Decimal.D8 d => 56%N :: uint_units d
  | Decimal.D9 d => 57%N :: uint_units d
  end.

(** What may follow a numeral for [parseInt] to stop there: the end of the
    string, or a code unit that is no digit. *)
Definition ends_number (rest : jsstring) : bool :=
  match rest with
  | [] => true
  | c :: _ => negb (is_digit c)
  end.

(** Requests for a history, in a trace. *)
Definition is_history_request (e : Event) : bool :=
  match e with FetchCall GET _ => true | _ => false end.

Definition history_requests (tr : list Event) : nat :=
  length (List.filter is_history_request tr).

(** An event whose URL, if it has one, is under the base address: requests
    under [base], sockets under [base] with its scheme swapped. *)
Definition url_under (base : jsstring) (e : Event) : Prop :=
  match e with
  | FetchCall _ u => base `prefix_of` u
  | NewWebSocket _ u => replace_http_ws base `prefix_of` u
  | _ => True
  end.

(** The store [l] holds at [ws] a socket for the address [u]. *)
Definition socket_at (l : list WebSocket) (ws : nat) (u : jsstring) : Prop :=
  exists s, l !! ws = Some s /\ url s = u.

(** How the sockets, the requests and [socketRef] hang together between
    two turns of the event loop (with [deps] for the identifier, so that it
    also holds between a handler and the commit that follows). *)
Record link_inv (p : Page) : Prop := {
  li_sockets : length (sockets p) = opened (trace p);
  li_history : history_requests (trace p) = opened (trace p);
  li_fetches : length (fetches p) =
               (creation_requests (trace p) + history_requests (trace p))%nat;
  li_ref : socketRef p =
           match sockets p with
           | [] => None
           | _ :: _ => Some (length (sockets p) - 1)%nat
           end;
  li_bound : forall ws, cleanup p = Some ws ->
      socketRef p = Some ws /\
      exists cid, deps p = Some cid /\
        socket_at (sockets p) ws (socket_url p cid)
}.

(** A locally echoed message, as a test. *)
Definition is_echo_b (m : Message) : bool :=
  match id m, sender m with
  | None, user => true
  | _, _ => false
  end.

(** The texts of the locally echoed messages of a log, in order. *)
Definition echoed (l : list Message) : list jsstring :=
  List.map content (List.filter is_echo_b l).

(** An event that cannot give the page an identifier: anything but the
    success of the creation request and an update from outside. *)
Definition gives_no_identifier (i : Input) : bool :=
  match i with
  | Settle _ (Created _) | Rebind _ => false
  | _ => true
  end.

(** The creation request is the only request the page has made. *)
Definition only_creation (p : Page) : Prop :=
  Forall (fun rq => chain rq = OnCreated) (fetches p).

(** A mounted or dismissed page on which nothing downstream of the
    identifier has happened. *)
Record inert (storage : gmap jsstring jsstring) (p : Page) : Prop := {
  inert_phase : phase p <> Initial;
  inert_id : conversationId p = None;
  inert_deps : deps p = None;
  inert_sockets : sockets p = [];
  inert_ref : socketRef p = None;
  inert_log : messages p = [];
  inert_fetches : only_creation p;
  inert_storage : localStorage p = storage;
  inert_history : history_requests (trace p) = 0%nat;
  inert_frames : sent_frames (trace p) = []
}.

(** An event of the transport that only fires a handler which logs:
    [onopen], [onerror], [onclose]. *)
Definition is_transport_notice (i : Input) : bool :=
  match i with
  | WsOpened _ | WsFailed _ | WsClosed _ => true
  | _ => false
  end.

Definition is_console (e : Event) : bool :=
  match e with ConsoleLog _ | ConsoleError _ => true | _ => false end.

(** ** The keyboard handler and the view *)

(** [handleKeyDown]: on the key ["Enter"] the default action is prevented
    and [sendMessage] runs.  The boolean tells whether [e.preventDefault()]
    was called. *)
Definition handleKeyDown (key : jsstring) (p : Page) : bool * Page :=
  if bool_decide (key = lit "Enter") then (true, sendMessage p) else (false, p).

(** One entry of [messages.map((msg, idx) => ...)]: the row with its React
    key and class, and the bubble with its class and its text. *)
Record Bubble := {
  bubble_key : nat;
  row_className : jsstring;
  bubble_className : jsstring;
  bubble_text : jsstring
}.

Inductive LogView :=
| Bubbles (rows : list Bubble)
| EmptyState (text : jsstring).

(** What [Home] returns, as far as it depends on the state: the line with
    the identifier, the list of messages or the empty state, and the value
    of the input box. *)
Record View := {
  conversation_line : jsstring;
  log_view : LogView;
  input_value : jsstring
}.

Definition render_message (idx : nat) (msg : Message) : Bubble :=
  {| bubble_key := idx;
     row_className :=
       lit "mb-2 flex " ++
       match sender msg with
       | user => lit "justify-end"
       | bot => lit "justify-start"
       end;
     bubble_className :=
       lit "rounded px-3 py-2 max-w-xs " ++
       match sender msg with
       | user => lit "bg-blue-500 text-white"
       | bot => lit "bg-gray-300 text-black"
       end;
     bubble_text := content msg |}.

Definition render (p : Page) : View :=
  {| conversation_line :=
       lit "Conversation ID: " ++
       match conversationId p with
       | Some n => String_ n
       | None => lit "(loading...)"
       end;
     log_view :=
       if (0 <? length (messages p))%nat
       then Bubbles (imap render_message (messages p))
       else EmptyState (lit "No messages yet. Say hello!");
     input_value := input p |}.

(** Three sessions used to instantiate the statements below: the page with
    a fresh conversation 7 and an open socket, with some text or only
    blanks in the input box, and the page whose socket is still connecting. *)
Definition sample_open : Page :=
  run (init None ∅)
    [Mount; Settle 0 (Created 7); WsOpened 0; Typing (lit "  hello  ")].

Definition sample_blank : Page :=
  run (init None ∅)
    [Mount; Settle 0 (Created 7); WsOpened 0; Typing (lit "   ")].

Definition sample_connecting : Page :=
  run (init None ∅) [Mount; Settle 0 (Created 7); Typing (lit "hi")].

Arguments lit : simpl never.
Arguments opened : simpl never.
Arguments binds : simpl never.
Arguments creation_requests : simpl never.
Arguments sent_frames : simpl never.
Arguments String_ : simpl never.
Arguments parseInt10 : simpl never.
Arguments trim : simpl never.
Arguments replace_http_ws : simpl never.
Arguments resolve_baseUrl : simpl never.

(** ** Properties of the JavaScript primitives *)

Lemma truthy_nonempty (s : jsstring) : truthy s = true <-> s <> [].
Proof. by destruct s. Qed.

Lemma truthy_empty (s : jsstring) : truthy s = false <-> s = [].
Proof. by destruct s. Qed.

Lemma digits_value_nondigit (acc : option Z) (c : code_unit) (r : jsstring) :
  is_digit c = false -> digits_value acc (c :: r) = acc.
Proof. intros H. simpl. now rewrite H. Qed.

(** A string that starts with neither white space, a sign nor a digit does
    not parse. *)
Lemma parseInt10_non_numeric (c : code_unit) (r : jsstring) :
  is_white_space c = false -> is_digit c = false ->
  c <> 45%N -> c <> 43%N ->
  parseInt10 (c :: r) = NaN.
Proof.
  intros Hw Hd Hm Hp. unfold parseInt10. simpl trimStart. rewrite Hw.
  apply N.eqb_neq in Hm, Hp. rewrite Hm, Hp. simpl orb. cbv iota.
  now rewrite digits_value_nondigit.
Qed.

Lemma trimStart_head (s : jsstring) (c : code_unit) (r : jsstring) :
  trimStart s = c :: r -> is_white_space c = false.
Proof.
  induction s as [|a s IH]; [done|]. simpl.
  destruct (is_white_space a) eqn:E; [done|]. by intros [= <- _].
Qed.

Lemma trimStart_suffix (s : jsstring) : exists k, s = k ++ trimStart s.
Proof.
  induction s as [|a s [k IH]]; [by exists []|]. simpl.
  destruct (is_white_space a).
  - exists (a :: k). simpl. by rewrite <- IH.
  - by exists [].
Qed.

Lemma trimEnd_prefix (s : jsstring) : exists k, s = trimEnd s ++ k.
Proof.
  unfold trimEnd. destruct (trimStart_suffix (rev s)) as [k Hk].
  exists (rev k). rewrite <- rev_app_distr, <- Hk. by rewrite rev_involutive.
Qed.

(** The trimmed text starts with a code unit that is not white space. *)
Lemma trim_head (s : jsstring) (c : code_unit) (r : jsstring) :
  trim s = c :: r -> is_white_space c = false.
Proof.
  unfold trim. intros H.
  destruct (trimEnd_prefix (trimStart s)) as [k Hk].
  rewrite H in Hk. by apply (trimStart_head s c (r ++ k)).
Qed.

Example trim_examples :
  trim (lit "  hello  ") = lit "hello" /\
  trim (lit "   ") = [] /\
  trim (lit " a  b ") = lit "a  b" /\
  trim [0x2003; 104; 105; 0x00A0; 0xFEFF; 10]%N = lit "hi".
Proof. repeat split; reflexivity. Qed.

Example parseInt10_examples :
  parseInt10 (lit "42") = Num 42 /\
  parseInt10 (lit "  -7px") = Num (-7) /\
  parseInt10 (lit "+15") = Num 15 /\
  parseInt10 (lit "0x1f") = Num 0 /\
  parseInt10 (lit "") = NaN /\
  parseInt10 (lit "-") = NaN /\
  parseInt10 (lit "abc") = NaN.
Proof. repeat split; reflexivity. Qed.

Example String_examples :
  String_ (Num 12) = lit "12" /\ String_ (Num (-3)) = lit "-3" /\
  String_ (Num 0) = lit "0" /\ String_ NaN = lit "NaN".
Proof. repeat split; reflexivity. Qed.

Example replace_http_ws_examples :
  replace_http_ws (lit "http://127.0.0.1:8000") = lit "ws://127.0.0.1:8000" /\
  replace_http_ws (lit "https://api.test") = lit "wss://api.test" /\
  replace_http_ws (lit "/api") = lit "/api".
Proof. repeat split; reflexivity. Qed.

(** ** Unfolding the page's operations *)

Ltac unfold_handlers :=
  unfold commit, rerun_effects, run_cleanup, socket_cleanup, socket_effect,
    history_effect, identity_effect, sendMessage, new_WebSocket, getItem,
    seq, skip in *.

Ltac page_step :=
  first [ progress cbn in *
        | case_match; simplify_eq
        | progress unfold_handlers ].

Ltac crush_page := repeat page_step; try done.

(** *** Observations of a trace that grows at its end *)

Lemma teardown_discipline_app (cur : option nat) (tr tr' : list Event) :
  teardown_discipline cur (tr ++ tr') =
  teardown_discipline cur tr ≫= fun c => teardown_discipline c tr'.
Proof.
  revert cur. induction tr as [|e tr IH]; intros cur; [done|].
  destruct e; simpl; try apply IH.
  - destruct cur; [done|apply IH].
  - case_bool_decide; [apply IH|done].
Qed.

Lemma opened_app (tr tr' : list Event) :
  opened (tr ++ tr') = (opened tr + opened tr')%nat.
Proof. unfold opened. by rewrite List.filter_app, length_app. Qed.

Lemma binds_app (tr tr' : list Event) :
  binds (tr ++ tr') = (binds tr + binds tr')%nat.
Proof. unfold binds. by rewrite List.filter_app, length_app. Qed.

Lemma creation_requests_app (tr tr' : list Event) :
  creation_requests (tr ++ tr') =
  (creation_requests tr + creation_requests tr')%nat.
Proof. unfold creation_requests. by rewrite List.filter_app, length_app. Qed.

Lemma sent_frames_app (tr tr' : list Event) :
  sent_frames (tr ++ tr') = sent_frames tr ++ sent_frames tr'.
Proof. unfold sent_frames. apply omap_app. Qed.

(** *** Only one socket can be live *)

Lemma only_live_nil (c : option nat) : only_live c [].
Proof. intros ws s H. by rewrite lookup_nil in H. Qed.

Lemma only_live_alter (c : option nat) (l : list WebSocket)
    (f : WebSocket -> WebSocket) (n : nat) :
  (forall s, l !! n = Some s -> live (f s) = true -> live s = true) ->
  only_live c l -> only_live c (alter f n l).
Proof.
  intros Hf Hl ws s Hs Hlive.
  destruct (decide (n = ws)) as [->|Hne].
  - rewrite list_lookup_alter_eq in Hs.
    destruct (l !! ws) as [s0|] eqn:E; simplify_eq/=. eauto.
  - rewrite list_lookup_alter_ne in Hs by done. eauto.
Qed.

Lemma only_live_closed (l : list WebSocket) (f : WebSocket -> WebSocket)
    (n : nat) :
  (forall s, live (f s) = false) ->
  only_live (Some n) l -> only_live None (alter f n l).
Proof.
  intros Hf Hl ws s Hs Hlive.
  destruct (decide (n = ws)) as [->|Hne].
  - rewrite list_lookup_alter_eq in Hs.
    destruct (l !! ws) as [s0|] eqn:E; simplify_eq/=. by rewrite Hf in Hlive.
  - rewrite list_lookup_alter_ne in Hs by done.
    specialize (Hl _ _ Hs Hlive). congruence.
Qed.

Lemma only_live_open (l : list WebSocket) (s : WebSocket) :
  only_live None l -> only_live (Some (length l)) (l ++ [s]).
Proof.
  intros Hl ws s' Hs Hlive.
  apply lookup_app_Some in Hs as [Hs|[Hge Hs]].
  - by specialize (Hl _ _ Hs Hlive).
  - apply list_lookup_singleton_Some in Hs as [Hz _]. f_equal. lia.
Qed.

Lemma only_live_none (c : option nat) (l : list WebSocket) :
  only_live None l -> only_live c l.
Proof. intros Hl ws s Hs Hlive. by specialize (Hl _ _ Hs Hlive). Qed.

Lemma live_closing (s : WebSocket) : live (closing s) = false.
Proof. unfold closing. destruct (live s) eqn:E; [done|by rewrite E]. Qed.

Lemma only_live_cleanup (c : option nat) (l : list WebSocket) :
  only_live c l -> only_live None (closed_by_cleanup c l).
Proof.
  destruct c as [ws|]; simpl; [|done].
  apply only_live_closed, live_closing.
Qed.

Lemma length_closed_by_cleanup (c : option nat) (l : list WebSocket) :
  length (closed_by_cleanup c l) = length l.
Proof. destruct c; simpl; [apply length_alter|done]. Qed.

(** *** The re-run of the effects, field by field *)

Lemma rerun_trace (cid : option number) (p : Page) :
  trace (rerun_effects cid p) =
  trace p ++ cleanup_events (cleanup p) ++ history_events p cid
          ++ socket_events p cid.
Proof.
  unfold history_events, socket_events, cleanup_events, history_url, socket_url.
  destruct cid, (cleanup p) eqn:E; unfold_handlers; rewrite ?E; cbn;
    rewrite ?E; cbn; rewrite <- ?app_assoc, ?length_alter, ?app_nil_r; done.
Qed.

Lemma rerun_sockets (cid : option number) (p : Page) :
  sockets (rerun_effects cid p) =
  closed_by_cleanup (cleanup p) (sockets p) ++
  match cid with
  | Some c => [{| url := socket_url p c; readyState := CONNECTING |}]
  | None => []
  end.
Proof.
  unfold closed_by_cleanup, socket_url.
  destruct cid, (cleanup p) eqn:E; unfold_handlers; rewrite ?E; cbn;
    rewrite ?E; cbn; rewrite ?app_nil_r; done.
Qed.

Lemma rerun_cleanup (cid : option number) (p : Page) :
  cleanup (rerun_effects cid p) =
  match cid with Some _ => Some (length (sockets p)) | None => None end.
Proof.
  destruct cid, (cleanup p) eqn:E; unfold_handlers; rewrite ?E; cbn;
    rewrite ?E; cbn; rewrite ?length_alter; done.
Qed.

Lemma rerun_socketRef (cid : option number) (p : Page) :
  socketRef (rerun_effects cid p) =
  match cid with Some _ => Some (length (sockets p)) | None => socketRef p end.
Proof.
  destruct cid, (cleanup p) eqn:E; unfold_handlers; rewrite ?E; cbn;
    rewrite ?E; cbn; rewrite ?length_alter; done.
Qed.

Lemma rerun_fetches (cid : option number) (p : Page) :
  fetches (rerun_effects cid p) =
  fetches p ++
  match cid with
  | Some c => [{| method := GET; target := history_url p c;
                  chain := OnHistory; settled := false |}]
  | None => []
  end.
Proof.
  unfold history_url.
  destruct cid, (cleanup p) eqn:E; unfold_handlers; rewrite ?E; cbn;
    rewrite ?E; cbn; rewrite ?app_nil_r; done.
Qed.

Lemma rerun_deps (cid : option number) (p : Page) :
  deps (rerun_effects cid p) = cid.
Proof. crush_page. Qed.

Lemma rerun_frame (cid : option number) (p : Page) :
  messages (rerun_effects cid p) = messages p /\
  input (rerun_effects cid p) = input p /\
  conversationId (rerun_effects cid p) = conversationId p /\
  localStorage (rerun_effects cid p) = localStorage p /\
  phase (rerun_effects cid p) = phase p /\
  baseUrl (rerun_effects cid p) = baseUrl p.
Proof. repeat split; crush_page. Qed.

Lemma opened_rerun_events (c : option nat) (p : Page) (cid : option number) :
  (opened (cleanup_events c ++ history_events p cid ++ socket_events p cid)
   <= 1)%nat /\
  binds (cleanup_events c ++ history_events p cid ++ socket_events p cid) = 0%nat /\
  creation_requests
    (cleanup_events c ++ history_events p cid ++ socket_events p cid) = 0%nat /\
  sent_frames (cleanup_events c ++ history_events p cid ++ socket_events p cid)
    = [].
Proof. destruct c, cid; cbv; repeat split; lia. Qed.

(** *** What the commit leaves alone *)

Lemma commit_frame (p : Page) :
  messages (commit p) = messages p /\
  input (commit p) = input p /\
  conversationId (commit p) = conversationId p /\
  localStorage (commit p) = localStorage p /\
  phase (commit p) = phase p /\
  baseUrl (commit p) = baseUrl p.
Proof.
  unfold commit. destruct (phase p) eqn:Hph; try done.
  destruct (Object_is _ _); [done|].
  rewrite <- Hph. apply rerun_frame.
Qed.

Lemma commit_messages (p : Page) : messages (commit p) = messages p.
Proof. apply commit_frame. Qed.

Lemma commit_phase (p : Page) : phase (commit p) = phase p.
Proof. apply commit_frame. Qed.

Lemma commit_conversationId (p : Page) :
  conversationId (commit p) = conversationId p.
Proof. apply commit_frame. Qed.

Lemma commit_committed (p : Page) : committed p -> commit p = p.
Proof.
  unfold committed, commit, Object_is. intros H.
  destruct (phase p); try done. rewrite H by done.
  by rewrite bool_decide_eq_true_2.
Qed.

Lemma commit_is_committed (p : Page) : committed (commit p).
Proof.
  unfold committed. intros Hph. rewrite commit_phase in Hph.
  unfold commit, Object_is. rewrite Hph.
  case_bool_decide as Hd; [done|].
  rewrite rerun_deps. symmetry. apply rerun_frame.
Qed.

(** ** The invariant of the event loop *)

Lemma loop_inv_init (env : option jsstring) (storage : gmap jsstring jsstring) :
  loop_inv (init env storage).
Proof. constructor; cbn; done. Qed.

Lemma committed_init (env : option jsstring) (storage : gmap jsstring jsstring) :
  committed (init env storage).
Proof. done. Qed.

Lemma loop_inv_commit (p : Page) : loop_inv p -> loop_inv (commit p).
Proof.
  intros I. unfold commit. destruct (phase p) eqn:Hph; try assumption.
  unfold Object_is. case_bool_decide as Hd; [assumption|].
  destruct I as [I1 I2 I3 I4 I5 I6 I7 I8 I9].
  pose proof (rerun_frame (conversationId p) p) as (Fm & Fi & Fc & Fs & Fp & Fb).
  pose proof (opened_rerun_events (cleanup p) p (conversationId p))
    as (Eo & Eb & Ec & Es).
  rewrite bool_decide_eq_true_2 in I7 by done.
  constructor;
    rewrite ?Fm, ?Fi, ?Fc, ?Fs, ?Fp, ?rerun_trace, ?rerun_cleanup,
      ?rerun_sockets, ?rerun_deps, ?Hph; try done.
  - destruct (conversationId p); done.
  - intros [?|?]; done.
  - destruct (conversationId p).
    + rewrite <- (length_closed_by_cleanup (cleanup p)).
      by apply only_live_open, only_live_cleanup.
    + rewrite app_nil_r. by apply only_live_cleanup.
  - rewrite teardown_discipline_app, I6. cbn.
    destruct (cleanup p), (conversationId p); cbn;
      rewrite ?bool_decide_eq_true_2, ?length_alter by done; done.
  - rewrite opened_app, binds_app, Eb.
    rewrite bool_decide_eq_false_2 by (by intros [_ ?]). lia.
  - rewrite sent_frames_app, Es, app_nil_r. done.
Qed.

Lemma echo_loaded (msgs : list ServerMessage) :
  Forall (fun m => is_echo m -> content m <> []) (List.map load_message msgs).
Proof.
  apply Forall_forall. intros m Hm. apply list_elem_of_In, in_map_iff in Hm.
  destruct Hm as (x & <- & _). by intros [? _].
Qed.

Lemma echo_snoc (l : list Message) (m : Message) :
  Forall (fun m => is_echo m -> content m <> []) l ->
  (sender m = bot \/ content m <> []) ->
  Forall (fun m => is_echo m -> content m <> []) (l ++ [m]).
Proof.
  intros Hl Hm. apply Forall_app. split; [done|]. constructor; [|done].
  intros [_ Hu]. destruct Hm as [Hb|Hm]; [congruence|done].
Qed.

Lemma frames_snoc (l : list jsstring) (d : jsstring) :
  Forall (fun d => d <> []) l -> truthy d = true ->
  Forall (fun d => d <> []) (l ++ [d]).
Proof.
  intros Hl Hd. apply Forall_app. split; [done|]. constructor; [|done].
  by apply truthy_nonempty.
Qed.

Lemma only_live_transition (c : option nat) (p : Page) (ws : nat)
    (r0 r : ReadyState) :
  readyState_of ws p = Some r0 ->
  match r with
  | CONNECTING | OPEN =>
      match r0 with CONNECTING | OPEN => True | _ => False end
  | _ => True
  end ->
  only_live c (sockets p) ->
  only_live c (alter (with_readyState r) ws (sockets p)).
Proof.
  unfold readyState_of. intros Hr Hrr. apply only_live_alter.
  intros s Hs. rewrite Hs in Hr. simplify_eq/=. unfold live. cbn.
  by destruct r, (readyState s).
Qed.

Ltac trace_simpl :=
  repeat first
    [ rewrite teardown_discipline_app in *
    | rewrite opened_app in *
    | rewrite binds_app in *
    | rewrite creation_requests_app in *
    | rewrite sent_frames_app in * ].

Ltac finish :=
  trace_simpl;
  unfold opened, binds, sent_frames, creation_requests in *; cbn in *;
  repeat match goal with
    | H : bool_decide _ = true |- _ => apply bool_decide_eq_true in H
    | H : bool_decide _ = false |- _ => apply bool_decide_eq_false in H
    | H : _ /\ _ |- _ => destruct H
    | H : teardown_discipline None (trace _) = _ |- _ => rewrite H in *; cbn in *
    | H : phase ?p = _ |- context [phase ?p] => rewrite H
    | H : cleanup ?p = _ |- context [cleanup ?p] => rewrite H
    end;
  rewrite ?app_nil_r, ?bool_decide_eq_true_2 in * by done;
  try done; try lia; try congruence;
  try (by apply only_live_closed; [apply live_closing|]);
  try match goal with
      | H : sockets ?p = [] |- only_live _ (sockets ?p) =>
          rewrite H; apply only_live_nil
      end;
  try (eapply only_live_transition; [eassumption|done|done]);
  try (by apply echo_loaded);
  try (by apply echo_snoc; [|(by left) || (right; by apply truthy_nonempty)]);
  try (by apply frames_snoc);
  try (by intros [?|?]).

Ltac split_input i p :=
  destruct i as [| |f r|ws|ws data|ws|ws|text| |v];
  try (destruct (fetches p !! f) as [rq|] eqn:Hf;
       [destruct (settled rq); [|destruct (chain rq), r]|]);
  try (destruct (readyState_of ws p) as [[]|] eqn:Hr).

Lemma loop_inv_handle (i : Input) (p : Page) :
  loop_inv p -> committed p -> loop_inv (handle i p).
Proof.
  intros [I1 I2 I3 I4 I5 I6 I7 I8 I9] Hc. unfold committed in Hc.
  unfold handle. destruct (phase p) eqn:Hph.
  - destruct I1 as (I1a & I1b & I1c & I1d); [done|].
    specialize (I2 eq_refl). specialize (I4 (or_introl eq_refl)).
    split_input i p;
      try (unfold readyState_of in *; rewrite ?I1b, ?I1c in *; done);
      constructor; crush_page; finish.
  - specialize (Hc eq_refl).
    split_input i p; constructor; crush_page; finish.
  - split_input i p; constructor; crush_page; finish.
Qed.

Lemma loop_inv_step (p : Page) (i : Input) :
  loop_inv p /\ committed p -> loop_inv (step p i) /\ committed (step p i).
Proof.
  intros [I Hc]. split.
  - by apply loop_inv_commit, loop_inv_handle.
  - apply commit_is_committed.
Qed.

Lemma loop_inv_run (evs : list Input) (p : Page) :
  loop_inv p /\ committed p -> loop_inv (run p evs) /\ committed (run p evs).
Proof.
  revert p. induction evs as [|i evs IH]; intros p H; [done|].
  apply IH, loop_inv_step, H.
Qed.

Lemma reachable_inv (p : Page) : reachable p -> loop_inv p /\ committed p.
Proof.
  intros (env & storage & evs & ->). apply loop_inv_run.
  split; [apply loop_inv_init|apply committed_init].
Qed.

Lemma reachable_step (p : Page) (i : Input) :
  reachable p -> reachable (step p i).
Proof.
  intros (env & storage & evs & ->). exists env, storage, (evs ++ [i]).
  unfold run. by rewrite fold_left_app.
Qed.

Lemma reachable_run (p : Page) (evs : list Input) :
  reachable p -> reachable (run p evs).
Proof.
  intros (env & storage & evs0 & ->). exists env, storage, (evs0 ++ evs).
  unfold run. by rewrite fold_left_app.
Qed.

(** ** The outbound dispatcher *)

Lemma socket_open_inv (p : Page) :
  socket_open p = true ->
  exists ws, socketRef p = Some ws /\ readyState_of ws p = Some OPEN.
Proof.
  unfold socket_open. destruct (socketRef p) as [ws|]; [|done].
  intros H%bool_decide_eq_true. eauto.
Qed.

Lemma sendMessage_open (p : Page) (ws : nat) :
  socketRef p = Some ws -> readyState_of ws p = Some OPEN ->
  sendMessage p =
  if truthy (trim (input p))
  then (console_log "Sending user message:" >>
        setMessages (fun prev => prev ++ [user_message (trim (input p))]) >>
        ws_send ws (trim (input p)) >> setInput []) p
  else p.
Proof.
  intros Hs Hr. unfold sendMessage. rewrite Hs, Hr.
  by rewrite bool_decide_eq_true_2.
Qed.

Lemma sendMessage_closed (p : Page) :
  socket_open p = false ->
  sendMessage p = alert "WebSocket not connected!" p.
Proof.
  unfold socket_open, sendMessage. destruct (socketRef p) as [ws|]; [|done].
  intros H. by rewrite H.
Qed.

(** Whatever the state of the page, the messages [sendMessage] appends and
    the frames it transmits are the same texts in the same order. *)
Lemma sendMessage_in_sync (p : Page) :
  exists new : list Message,
    messages (sendMessage p) = messages p ++ new /\
    sent_frames (trace (sendMessage p)) =
      sent_frames (trace p) ++ List.map content new /\
    Forall is_echo new /\ (length new <= 1)%nat.
Proof.
  destruct (socket_open p) eqn:Ho.
  - apply socket_open_inv in Ho as (ws & Hs & Hr).
    rewrite (sendMessage_open p ws Hs Hr).
    destruct (truthy (trim (input p))).
    + exists [user_message (trim (input p))]. cbn.
      rewrite !sent_frames_app, <- app_assoc.
      repeat split; try done. by constructor.
    + exists []. cbn. rewrite !app_nil_r. repeat split; try done. lia.
  - rewrite (sendMessage_closed p Ho). exists []. cbn.
    rewrite sent_frames_app, !app_nil_r. repeat split; try done. lia.
Qed.

(** While the page is mounted and between two turns of the event loop, a
    click on Send is exactly [sendMessage]. *)
Lemma step_Send (p : Page) :
  committed p -> phase p = Mounted -> step p Send = sendMessage p.
Proof.
  intros Hc Hph. unfold step, handle. rewrite Hph.
  apply commit_committed. unfold committed in *.
  intros Hph'. specialize (Hc Hph). revert Hph'. crush_page.
Qed.

(** C2 (as amended).  When the socket of [socketRef] is open and the
    trimmed input is not empty, [sendMessage] appends exactly one message
    [{sender: user, content: trimmed input}] without id to the log, sends
    exactly one frame, the trimmed input, on that socket, and clears the
    input; in every state of the page the appended messages and the
    transmitted frames are the same texts, so one happens if and only if
    the other does.  In particular the input ["  hello  "] gives one user
    message ["hello"] and one frame ["hello"]. *)
Theorem dispatch_while_open :
  (forall p : Page,
     socket_open p = true -> trim (input p) <> [] ->
     exists ws, socketRef p = Some ws /\
       messages (sendMessage p) =
         messages p ++ [{| id := None; sender := user;
                           content := trim (input p) |}] /\
       trace (sendMessage p) =
         trace p ++ [ConsoleLog (lit "Sending user message:");
                     WsSend ws (trim (input p))] /\
       sent_frames (trace (sendMessage p)) =
         sent_frames (trace p) ++ [trim (input p)] /\
       input (sendMessage p) = []) /\
  (forall p : Page,
     exists new : list Message,
       messages (sendMessage p) = messages p ++ new /\
       sent_frames (trace (sendMessage p)) =
         sent_frames (trace p) ++ List.map content new) /\
  (forall p : Page,
     socket_open p = true -> input p = lit "  hello  " ->
     messages (sendMessage p) =
       messages p ++ [{| id := None; sender := user; content := lit "hello" |}] /\
     sent_frames (trace (sendMessage p)) =
       sent_frames (trace p) ++ [lit "hello"]).
Proof.
  assert (Hmain : forall p : Page,
     socket_open p = true -> trim (input p) <> [] ->
     exists ws, socketRef p = Some ws /\
       messages (sendMessage p) =
         messages p ++ [{| id := None; sender := user;
                           content := trim (input p) |}] /\
       trace (sendMessage p) =
         trace p ++ [ConsoleLog (lit "Sending user message:");
                     WsSend ws (trim (input p))] /\
       sent_frames (trace (sendMessage p)) =
         sent_frames (trace p) ++ [trim (input p)] /\
       input (sendMessage p) = []).
  { intros p (ws & Hs & Hr)%socket_open_inv Ht%truthy_nonempty.
    exists ws. split; [done|].
    rewrite (sendMessage_open p ws Hs Hr), Ht. cbn.
    rewrite !sent_frames_app, <- !app_assoc. done. }
  split; [exact Hmain|]. split.
  - intros p. destruct (sendMessage_in_sync p) as (new & H1 & H2 & _). eauto.
  - intros p Ho Hi.
    destruct (Hmain p Ho) as (ws & _ & Hm & _ & Hf & _).
    + by rewrite Hi.
    + rewrite Hm, Hf, Hi. done.
Qed.

(** C4.  When [socketRef] holds no socket, or one that is not open,
    [sendMessage] does nothing but raise the alert: no message is appended,
    no frame is sent, and every cell of the page keeps its value. *)
Theorem dispatch_not_connected (p : Page) :
  socket_open p = false ->
  sendMessage p = emit (Alert (lit "WebSocket not connected!")) p /\
  trace (sendMessage p) = trace p ++ [Alert (lit "WebSocket not connected!")] /\
  sent_frames (trace (sendMessage p)) = sent_frames (trace p) /\
  messages (sendMessage p) = messages p /\
  input (sendMessage p) = input p /\
  conversationId (sendMessage p) = conversationId p /\
  socketRef (sendMessage p) = socketRef p /\
  sockets (sendMessage p) = sockets p /\
  fetches (sendMessage p) = fetches p /\
  localStorage (sendMessage p) = localStorage p.
Proof.
  intros Ho. rewrite (sendMessage_closed p Ho). cbn.
  rewrite sent_frames_app, app_nil_r. done.
Qed.

(** C5.  When the socket is open and the trimmed input is empty,
    [sendMessage] changes nothing at all: no message, no frame, no alert.
    Hence, in every state a session can reach, no transmitted frame and no
    locally echoed user message has empty content. *)
Theorem blank_dispatch_is_noop :
  (forall p : Page,
     socket_open p = true -> trim (input p) = [] -> sendMessage p = p) /\
  (forall p : Page,
     reachable p ->
     Forall (fun d => d <> []) (sent_frames (trace p)) /\
     Forall (fun m => id m = None /\ sender m = user -> content m <> [])
       (messages p)).
Proof.
  split.
  - intros p (ws & Hs & Hr)%socket_open_inv Ht%truthy_empty.
    by rewrite (sendMessage_open p ws Hs Hr), Ht.
  - intros p [I _]%reachable_inv. split; [apply I|apply (inv_echo p I)].
Qed.

(** ** The identity resolver *)

Lemma handle_phase (i : Input) (p : Page) :
  phase p <> Initial -> phase (handle i p) <> Initial.
Proof.
  intros Hph. unfold handle.
  destruct (phase p) eqn:E; [done| |];
    split_input i p; crush_page; finish.
Qed.

Lemma handle_creation_requests (i : Input) (p : Page) :
  phase p <> Initial ->
  creation_requests (trace (handle i p)) = creation_requests (trace p).
Proof.
  intros Hph. unfold handle.
  destruct (phase p) eqn:E; [done| |];
    split_input i p; crush_page; finish.
Qed.

Lemma commit_creation_requests (p : Page) :
  creation_requests (trace (commit p)) = creation_requests (trace p).
Proof.
  unfold commit. destruct (phase p); try done.
  destruct (Object_is _ _); [done|].
  rewrite rerun_trace, creation_requests_app.
  pose proof (opened_rerun_events (cleanup p) p (conversationId p))
    as (_ & _ & -> & _). lia.
Qed.

Lemma run_creation_requests (evs : list Input) (p : Page) :
  phase p <> Initial ->
  creation_requests (trace (run p evs)) = creation_requests (trace p).
Proof.
  revert p. induction evs as [|i evs IH]; intros p Hph; [done|].
  change (run p (i :: evs)) with (run (step p i) evs). rewrite IH.
  - unfold step. by rewrite commit_creation_requests, handle_creation_requests.
  - unfold step. rewrite commit_phase. by apply handle_phase.
Qed.

Lemma cached_spec (storage : gmap jsstring jsstring) :
  cached storage = true <->
  exists s, storage !! lit "conversationId" = Some s /\ s <> [].
Proof.
  unfold cached. destruct (storage !! lit "conversationId") as [s|].
  - rewrite truthy_nonempty. split.
    + intros H. by exists s.
    + by intros (s' & [= <-] & H).
  - split; [done|]. by intros (s & H & _).
Qed.

(** The first turn of a session with a cached identifier. *)
Lemma mount_cached (env : option jsstring) (storage : gmap jsstring jsstring)
    (s : jsstring) :
  storage !! lit "conversationId" = Some s -> s <> [] ->
  let p := step (init env storage) Mount in
  phase p = Mounted /\
  conversationId p = Some (parseInt10 s) /\
  trace p =
    [ConsoleLog (lit "Found existing conversation ID in localStorage:");
     SetConversationId (Some (parseInt10 s));
     ConsoleLog (lit "Fetching messages for convo:");
     FetchCall GET (history_url p (parseInt10 s));
     ConsoleLog (lit "Opening WebSocket for conversation:");
     NewWebSocket 0 (socket_url p (parseInt10 s))].
Proof.
  intros Hs Hne%truthy_nonempty. unfold step, handle. cbn.
  unfold identity_effect, getItem. cbn. rewrite Hs, Hne.
  unfold commit. cbn. unfold Object_is. rewrite bool_decide_eq_false_2 by done.
  repeat split.
Qed.

(** The first turn of a session without one. *)
Lemma mount_fresh (env : option jsstring) (storage : gmap jsstring jsstring) :
  cached storage = false ->
  let p := step (init env storage) Mount in
  phase p = Mounted /\
  conversationId p = None /\
  trace p =
    [ConsoleLog (lit "No conversation in localStorage, creating new...");
     FetchCall POST (baseUrl p ++ lit "/conversations/new")] /\
  pending p 0 OnCreated.
Proof.
  unfold cached. intros Hc. unfold step, handle. cbn.
  unfold identity_effect, getItem. cbn.
  destruct (storage !! lit "conversationId") as [s|]; [rewrite Hc|];
    cbn; repeat split; try done; eexists; cbn; done.
Qed.

Lemma handle_created (p : Page) (f : nat) (n : Z) :
  pending p f OnCreated ->
  handle (Settle f (Created n)) p = (settle f >> created_then n) p.
Proof.
  intros (rq & Hf & Hk & Hs). unfold handle. by rewrite Hf, Hs, Hk.
Qed.

(** C1.  A session that starts without a cached identifier issues exactly
    one creation request, whatever happens afterwards, and one that starts
    with a cached identifier issues none.  When the creation request
    succeeds with identifier [n] while the page is mounted and has no
    identifier yet, the identifier is first written to storage, then given
    to [setConversationId], and the effects that run next request the
    history of [n] and open the socket for [n]. *)
Theorem identity_resolution_at_session_start
    (env : option jsstring) (storage : gmap jsstring jsstring) :
  let p0 := step (init env storage) Mount in
  (forall evs,
     creation_requests (trace (run p0 evs)) =
     if cached storage then 0%nat else 1%nat) /\
  (forall evs f n,
     let p := run p0 evs in
     phase p = Mounted -> conversationId p = None -> pending p f OnCreated ->
     let p' := step p (Settle f (Created n)) in
     trace p' =
       trace p ++
       [StorageSetItem (lit "conversationId") (String_ (Num n));
        SetConversationId (Some (Num n));
        ConsoleLog (lit "Created conversation id:");
        ConsoleLog (lit "Fetching messages for convo:");
        FetchCall GET (baseUrl p ++ lit "/conversations/" ++ String_ (Num n)
                         ++ lit "/messages");
        ConsoleLog (lit "Opening WebSocket for conversation:");
        NewWebSocket (length (sockets p))
          (replace_http_ws (baseUrl p) ++ lit "/ws/chat?conversation_id="
             ++ String_ (Num n))] /\
     localStorage p' !! lit "conversationId" = Some (String_ (Num n)) /\
     conversationId p' = Some (Num n)).
Proof.
  intros p0. split.
  - intros evs. rewrite run_creation_requests.
    + destruct (cached storage) eqn:Hc.
      * apply cached_spec in Hc as (s & Hs & Hne).
        destruct (mount_cached env storage s Hs Hne) as (_ & _ & Ht).
        fold p0 in Ht. by rewrite Ht.
      * destruct (mount_fresh env storage Hc) as (_ & _ & Ht & _).
        fold p0 in Ht. by rewrite Ht.
    + unfold p0, step. rewrite commit_phase. cbn. crush_page.
  - intros evs f n p Hph Hcid Hpend p'.
    assert (Hreach : reachable p).
    { apply reachable_run, reachable_step. by exists env, storage, []. }
    apply reachable_inv in Hreach as [I Hc].
    specialize (Hc Hph). rewrite Hcid in Hc.
    pose proof (proj2 (inv_cleanup_deps p I Hph) Hc) as Hcl.
    unfold p', step. rewrite (handle_created p f n Hpend).
    unfold commit. cbn. rewrite Hph, Hc. unfold Object_is.
    rewrite bool_decide_eq_false_2 by done.
    pose proof (rerun_frame (Some (Num n))
                  ((settle f >> created_then n) p)) as (_ & _ & Fc & Fs & _).
    rewrite rerun_trace, Fc, Fs. cbn. rewrite Hcl. cbn.
    unfold history_url, socket_url. cbn.
    rewrite <- !app_assoc. cbn. split; [done|]. split; [|done].
    apply lookup_insert_eq.
Qed.

(** C10.  A cached value that is not empty is never validated: the session
    issues no creation request, the identifier is [parseInt] of the value,
    and the history request and the socket are opened for it.  A value that
    starts with neither white space, a sign nor a digit, such as ["abc"],
    therefore resolves to [NaN]. *)
Theorem cached_value_is_parsed_not_validated
    (env : option jsstring) (storage : gmap jsstring jsstring) (s : jsstring) :
  storage !! lit "conversationId" = Some s -> s <> [] ->
  let p := step (init env storage) Mount in
  conversationId p = Some (parseInt10 s) /\
  (forall evs, creation_requests (trace (run p evs)) = 0%nat) /\
  trace p =
    [ConsoleLog (lit "Found existing conversation ID in localStorage:");
     SetConversationId (Some (parseInt10 s));
     ConsoleLog (lit "Fetching messages for convo:");
     FetchCall GET (baseUrl p ++ lit "/conversations/"
                      ++ String_ (parseInt10 s) ++ lit "/messages");
     ConsoleLog (lit "Opening WebSocket for conversation:");
     NewWebSocket 0 (replace_http_ws (baseUrl p)
                       ++ lit "/ws/chat?conversation_id="
                       ++ String_ (parseInt10 s))] /\
  (forall c r, s = c :: r ->
     is_white_space c = false -> is_digit c = false ->
     c <> 45%N -> c <> 43%N ->
     conversationId p = Some NaN /\ String_ (parseInt10 s) = lit "NaN") /\
  parseInt10 (lit "abc") = NaN.
Proof.
  intros Hs Hne p.
  destruct (mount_cached env storage s Hs Hne) as (Hph & Hcid & Htr).
  fold p in Hph, Hcid, Htr.
  split; [done|]. split; [|split; [done|split; [|done]]].
  - intros evs. rewrite run_creation_requests by (by rewrite Hph).
    by rewrite Htr.
  - intros c r E Hw Hd Hm Hp.
    rewrite Hcid, E, (parseInt10_non_numeric c r Hw Hd Hm Hp). done.
Qed.

(** ** The message log *)

Lemma step_WsMessage (p : Page) (ws : nat) (data : jsstring) :
  committed p -> readyState_of ws p = Some OPEN ->
  step p (WsMessage ws data) = onmessage data p.
Proof.
  intros Hc Hr. unfold step, handle. rewrite Hr. by apply commit_committed.
Qed.

(** C3.  Frames [f1 ... fn] delivered in that order on an open socket add
    exactly [n] messages at the end of the log, in the same order, each
    [{sender: bot, content: the frame as it came}] without id; the socket
    stays open and nothing is sent. *)
Theorem inbound_frames_in_order (p : Page) (ws : nat) (frames : list jsstring) :
  reachable p -> readyState_of ws p = Some OPEN ->
  let p' := run p (List.map (WsMessage ws) frames) in
  messages p' =
    messages p ++
    List.map (fun f => {| id := None; sender := bot; content := f |}) frames /\
  length (messages p') = (length (messages p) + length frames)%nat /\
  readyState_of ws p' = Some OPEN /\
  sent_frames (trace p') = sent_frames (trace p).
Proof.
  intros [_ Hc]%reachable_inv Hr. cbn zeta.
  assert (H : messages (run p (List.map (WsMessage ws) frames)) =
              messages p ++ List.map bot_message frames /\
              readyState_of ws (run p (List.map (WsMessage ws) frames))
                = Some OPEN /\
              sent_frames (trace (run p (List.map (WsMessage ws) frames)))
                = sent_frames (trace p)).
  { revert p Hc Hr. induction frames as [|d frames IH]; intros p Hc Hr.
    - cbn. by rewrite app_nil_r.
    - change (run p (List.map (WsMessage ws) (d :: frames)))
        with (run (step p (WsMessage ws d)) (List.map (WsMessage ws) frames)).
      rewrite (step_WsMessage p ws d Hc Hr).
      destruct (IH (onmessage d p)) as (Hm & Ho & Hf); [done|done|].
      rewrite Hm, Ho, Hf. cbn. rewrite <- app_assoc, sent_frames_app.
      split; [done|]. split; [done|]. apply app_nil_r. }
  destruct H as (Hm & Ho & Hf). rewrite Hm, Ho, Hf.
  repeat split; try done.
  rewrite length_app. f_equal. apply length_map.
Qed.

Lemma handle_history (p : Page) (f : nat) (msgs : list ServerMessage) :
  pending p f OnHistory ->
  handle (Settle f (Messages msgs)) p = (settle f >> history_then msgs) p.
Proof.
  intros (rq & Hf & Hk & Hs). unfold handle. by rewrite Hf, Hs, Hk.
Qed.

Lemma handle_history_rejected (p : Page) (f : nat) :
  pending p f OnHistory ->
  handle (Settle f Rejected) p = (settle f >> history_catch) p.
Proof.
  intros (rq & Hf & Hk & Hs). unfold handle. by rewrite Hf, Hs, Hk.
Qed.

(** C6.  When a pending history request succeeds with the records [msgs],
    the log becomes the list of their images, whatever it held before: as
    many entries, in the order of the server, each with the id and the
    content of its record, and with sender [user] when the record says
    ["user"] and [bot] for every other value.  The records
    [[{id:1, sender:"user", content:"hi"}]] give a log of that one entry. *)
Theorem history_load_replaces_log (p : Page) (f : nat)
    (msgs : list ServerMessage) :
  pending p f OnHistory ->
  let p' := step p (Settle f (Messages msgs)) in
  length (messages p') = length msgs /\
  (forall i m, msgs !! i = Some m ->
     messages p' !! i =
       Some {| id := Some (m_id m);
               sender := if bool_decide (m_sender m = lit "user")
                         then user else bot;
               content := m_content m |}) /\
  (forall i m, messages p' !! i = Some m ->
     exists r, msgs !! i = Some r /\
       (m_sender r <> lit "user" -> sender m = bot) /\
       (m_sender r = lit "user" -> sender m = user)) /\
  (msgs = [{| m_id := 1; m_sender := lit "user"; m_content := lit "hi" |}] ->
   messages p' = [{| id := Some 1; sender := user; content := lit "hi" |}]).
Proof.
  intros Hp p'.
  assert (Hm : messages p' = load_message <$> msgs).
  { unfold p', step. rewrite commit_messages, (handle_history p f msgs Hp).
    done. }
  rewrite Hm. split; [apply length_fmap|]. split; [|split].
  - intros i m Hi. rewrite list_lookup_fmap, Hi. done.
  - intros i m Hi. rewrite list_lookup_fmap in Hi.
    destruct (msgs !! i) as [r|]; [|done]. simplify_eq/=.
    exists r. split; [done|]. split; intros Hu.
    + by rewrite bool_decide_eq_false_2.
    + by rewrite bool_decide_eq_true_2.
  - intros ->. done.
Qed.

(** C7.  When a pending history request fails, the log keeps exactly the
    content it had, the only thing that happens is the report on
    [console.error], and no request is issued again: the list of requests
    is as long as before and the failed one is settled for good. *)
Theorem history_failure_leaves_log (p : Page) (f : nat) :
  reachable p -> pending p f OnHistory ->
  let p' := step p (Settle f Rejected) in
  messages p' = messages p /\
  trace p' =
    trace p ++ [ConsoleError (lit "Failed to fetch conversation messages:")] /\
  length (fetches p') = length (fetches p) /\
  List.filter is_request (trace p') = List.filter is_request (trace p) /\
  ~ pending p' f OnHistory /\
  conversationId p' = conversationId p /\ sockets p' = sockets p /\
  input p' = input p /\ localStorage p' = localStorage p.
Proof.
  intros [_ Hc]%reachable_inv Hp p'.
  assert (He : p' = (settle f >> history_catch) p).
  { unfold p', step. rewrite (handle_history_rejected p f Hp).
    by apply commit_committed. }
  rewrite He. cbn. rewrite length_alter, List.filter_app, app_nil_r.
  repeat split; try done.
  intros (rq & Hf & _ & Hs). cbn in Hf. rewrite list_lookup_alter_eq in Hf.
  destruct (fetches p !! f); by simplify_eq/=.
Qed.

Lemma handle_messages_prefix (i : Input) (p : Page) :
  is_history_load i = false -> messages p `prefix_of` messages (handle i p).
Proof.
  intros Hi. unfold handle.
  destruct (phase p); split_input i p; try done; crush_page;
    by apply prefix_app_r.
Qed.

(** C9.  Over any sequence of events that contains no successful history
    load (frames received, messages sent, typing, failures, closes), the
    log only grows at its end: the log before is a prefix of the log after,
    so every entry keeps its position and its value. *)
Theorem log_is_append_only (p : Page) (evs : list Input) :
  Forall (fun i => is_history_load i = false) evs ->
  messages p `prefix_of` messages (run p evs) /\
  (forall k m, messages p !! k = Some m -> messages (run p evs) !! k = Some m).
Proof.
  intros Hevs.
  assert (H : messages p `prefix_of` messages (run p evs)).
  { revert p. induction Hevs as [|i evs Hi _ IH]; intros p; [done|].
    change (run p (i :: evs)) with (run (step p i) evs).
    etrans; [|apply IH]. unfold step. rewrite commit_messages.
    by apply handle_messages_prefix. }
  split; [done|]. intros k m Hk. destruct H as [l ->].
  by apply lookup_app_l_Some.
Qed.

(** ** The live session connection *)

Lemma only_live_None_filter (l : list WebSocket) :
  only_live None l -> List.filter live l = [].
Proof.
  induction l as [|s l IH]; intros H; [done|]. cbn.
  destruct (live s) eqn:E.
  - by specialize (H 0%nat s eq_refl E).
  - apply IH. intros ws s' Hs Hl. by specialize (H (S ws) s' Hs Hl).
Qed.

Lemma only_live_count (c : option nat) (l : list WebSocket) :
  only_live c l -> (length (List.filter live l) <= 1)%nat.
Proof.
  revert c. induction l as [|s l IH]; intros c H; cbn; [lia|].
  destruct (live s) eqn:E.
  - rewrite only_live_None_filter; [cbn; lia|].
    intros ws s' Hs Hl.
    pose proof (H 0%nat s eq_refl E) as H0.
    pose proof (H (S ws) s' Hs Hl) as H1. congruence.
  - apply (IH (pred <$> c)). intros ws s' Hs Hl.
    by rewrite (H (S ws) s' Hs Hl).
Qed.

Lemma step_Rebind (p : Page) (v : option number) :
  phase p = Mounted -> committed p -> v <> conversationId p ->
  step p (Rebind v) = rerun_effects v (setConversationId v p).
Proof.
  intros Hph Hc Hv. unfold step, handle, commit. rewrite Hph. cbn.
  rewrite Hph, (Hc Hph). unfold Object_is.
  by rewrite bool_decide_eq_false_2.
Qed.

Lemma step_Unmount (p : Page) :
  phase p = Mounted -> step p Unmount = set_phase Dismissed (run_cleanup p).
Proof.
  intros Hph. unfold step, handle, commit. rewrite Hph. done.
Qed.

Lemma run_cleanup_spec (p : Page) :
  trace (run_cleanup p) = trace p ++ cleanup_events (cleanup p) /\
  sockets (run_cleanup p) = closed_by_cleanup (cleanup p) (sockets p) /\
  cleanup (run_cleanup p) = None.
Proof.
  unfold run_cleanup. destruct (cleanup p) as [ws|] eqn:E; cbn.
  - by rewrite <- app_assoc.
  - by rewrite app_nil_r.
Qed.

Lemma dismissed_step (p : Page) (i : Input) :
  phase p = Dismissed ->
  phase (step p i) = Dismissed /\ opened (trace (step p i)) = opened (trace p).
Proof.
  intros Hph. unfold step.
  assert (H : phase (handle i p) = Dismissed /\
              opened (trace (handle i p)) = opened (trace p)).
  { unfold handle. rewrite Hph. split; split_input i p; crush_page; finish. }
  destruct H as [H1 H2]. unfold commit. by rewrite H1.
Qed.

Lemma dismissed_run (evs : list Input) (p : Page) :
  phase p = Dismissed -> opened (trace (run p evs)) = opened (trace p).
Proof.
  revert p. induction evs as [|i evs IH]; intros p Hph; [done|].
  change (run p (i :: evs)) with (run (step p i) evs).
  destruct (dismissed_step p i Hph) as [H1 H2]. by rewrite IH.
Qed.

Lemma transport_end_opens_nothing (p : Page) (i : Input) :
  committed p ->
  (exists ws, i = WsFailed ws \/ i = WsClosed ws) ->
  opened (trace (step p i)) = opened (trace p) /\
  length (sockets (step p i)) = length (sockets p) /\
  List.filter is_request (trace (step p i)) = List.filter is_request (trace p).
Proof.
  intros Hc (ws & Hi). unfold step.
  assert (H : committed (handle i p) /\
              opened (trace (handle i p)) = opened (trace p) /\
              length (sockets (handle i p)) = length (sockets p) /\
              List.filter is_request (trace (handle i p))
                = List.filter is_request (trace p)).
  { unfold committed in *. unfold handle.
    destruct Hi as [-> | ->];
      destruct (readyState_of ws p) as [[]|]; cbn;
      rewrite ?length_alter, ?opened_app, ?List.filter_app, ?app_nil_r;
      try done; repeat split; try done; unfold opened; cbn; lia. }
  destruct H as (H1 & H2 & H3 & H4). by rewrite (commit_committed _ H1).
Qed.

(** C8.  In every state a session can reach:
    - the trace opens a socket only when the page holds none that it has
      not closed, and closes only the one it opened ([teardown_discipline]),
      so a close always comes between two opens;
    - at most one socket of the store is connecting or open, and it is the
      one the pending cleanup holds;
    - a change of the identifier to [v] first closes that socket, then asks
      for the history of [v] and opens a socket for [v], and does the last
      two only when [v] is an identifier: afterwards no earlier socket is
      live, and the store has one more socket exactly when [v] is not null;
    - dismissing the view closes the socket, leaves no live socket, and no
      socket is opened ever after;
    - a transport failure or close opens no socket and issues no request;
    - there are never more sockets opened than updates of the identifier. *)
Theorem teardown_rule (p : Page) :
  reachable p ->
  teardown_discipline None (trace p) = Some (cleanup p) /\
  (live_count p <= 1)%nat /\
  (forall ws s, sockets p !! ws = Some s -> live s = true ->
     cleanup p = Some ws) /\
  (phase p = Mounted -> (cleanup p = None <-> conversationId p = None)) /\
  (forall v, phase p = Mounted -> v <> conversationId p ->
     let p' := step p (Rebind v) in
     trace p' =
       trace p ++ [SetConversationId v] ++ cleanup_events (cleanup p)
               ++ history_events p v ++ socket_events p v /\
     (forall ws s, sockets p' !! ws = Some s ->
        (ws < length (sockets p))%nat -> live s = false) /\
     length (sockets p') =
       (length (sockets p) + match v with Some _ => 1 | None => 0 end)%nat /\
     (live_count p' <= 1)%nat) /\
  (phase p = Mounted ->
     let p' := step p Unmount in
     trace p' = trace p ++ cleanup_events (cleanup p) /\
     live_count p' = 0%nat /\
     forall evs, opened (trace (run p' evs)) = opened (trace p')) /\
  (forall ws,
     opened (trace (step p (WsFailed ws))) = opened (trace p) /\
     opened (trace (step p (WsClosed ws))) = opened (trace p) /\
     length (sockets (step p (WsFailed ws))) = length (sockets p) /\
     length (sockets (step p (WsClosed ws))) = length (sockets p) /\
     List.filter is_request (trace (step p (WsFailed ws)))
       = List.filter is_request (trace p) /\
     List.filter is_request (trace (step p (WsClosed ws)))
       = List.filter is_request (trace p)) /\
  (opened (trace p) <= binds (trace p))%nat.
Proof.
  intros Hreach. pose proof (reachable_inv p Hreach) as [I Hc].
  split; [apply I|]. split; [apply (only_live_count _ _ (inv_live p I))|].
  split; [apply (inv_live p I)|]. split; [|split; [|split; [|split]]].
  - intros Hph. rewrite <- (Hc Hph). by apply inv_cleanup_deps.
  - intros v Hph Hv p'. unfold p'. rewrite (step_Rebind p v Hph Hc Hv).
    assert (Hs : sockets (rerun_effects v (setConversationId v p)) =
                 closed_by_cleanup (cleanup p) (sockets p) ++
                 match v with
                 | Some c => [{| url := socket_url p c;
                                 readyState := CONNECTING |}]
                 | None => []
                 end) by (by rewrite rerun_sockets).
    assert (Ht : trace (rerun_effects v (setConversationId v p)) =
                 trace p ++ [SetConversationId v]
                   ++ cleanup_events (cleanup p)
                   ++ history_events p v ++ socket_events p v).
    { rewrite rerun_trace. cbn. by rewrite <- app_assoc. }
    unfold live_count. rewrite Hs, Ht. split; [done|].
    pose proof (only_live_cleanup _ _ (inv_live p I)) as Hnone.
    pose proof (length_closed_by_cleanup (cleanup p) (sockets p)) as Hlen.
    split; [|split].
    + intros ws s Hws Hlt. rewrite lookup_app_l in Hws by lia.
      destruct (live s) eqn:E; [|done]. by specialize (Hnone ws s Hws E).
    + rewrite length_app, Hlen. clear. destruct v; cbn; lia.
    + rewrite List.filter_app, length_app, (only_live_None_filter _ Hnone).
      destruct v; cbn; lia.
  - intros Hph p'. unfold p'. rewrite (step_Unmount p Hph).
    destruct (run_cleanup_spec p) as (Ht & Hs & Hcl).
    cbn. rewrite Ht. split; [done|]. split.
    + unfold live_count. cbn. rewrite Hs, only_live_None_filter; [done|].
      apply only_live_cleanup, I.
    + intros evs. rewrite dismissed_run by done. cbn. by rewrite Ht.
  - intros ws.
    destruct (transport_end_opens_nothing p (WsFailed ws) Hc) as (?&?&?);
      [eauto|].
    destruct (transport_end_opens_nothing p (WsClosed ws) Hc) as (?&?&?);
      [eauto|].
    done.
  - pose proof (inv_opened p I) as H. lia.
Qed.

(** ** The statements at concrete sessions *)

Lemma sample_reachable (evs : list Input) :
  reachable (run (init None ∅) evs).
Proof. by exists None, ∅, evs. Qed.

(** C2, counterexample to the claim as stated.  With the socket open and
    the input ["   "], [sendMessage] appends no message and sends no frame:
    the log is not the old log followed by a user message. *)
Lemma dispatch_blank_input_counterexample :
  socket_open sample_blank = true /\
  input sample_blank = lit "   " /\
  messages (sendMessage sample_blank) = messages sample_blank /\
  sent_frames (trace (sendMessage sample_blank)) = [] /\
  messages (sendMessage sample_blank) <>
    messages sample_blank ++
      [{| id := None; sender := user; content := trim (input sample_blank) |}].
Proof. vm_compute. repeat split; try reflexivity. discriminate. Qed.

Lemma dispatch_while_open_witness :
  (exists ws, socketRef sample_open = Some ws /\
     messages (sendMessage sample_open) =
       messages sample_open ++
         [{| id := None; sender := user;
             content := trim (input sample_open) |}] /\
     trace (sendMessage sample_open) =
       trace sample_open ++ [ConsoleLog (lit "Sending user message:");
                             WsSend ws (trim (input sample_open))] /\
     sent_frames (trace (sendMessage sample_open)) =
       sent_frames (trace sample_open) ++ [trim (input sample_open)] /\
     input (sendMessage sample_open) = []) /\
  (messages (sendMessage sample_open) =
     messages sample_open ++
       [{| id := None; sender := user; content := lit "hello" |}] /\
   sent_frames (trace (sendMessage sample_open)) =
     sent_frames (trace sample_open) ++ [lit "hello"]).
Proof.
  destruct dispatch_while_open as (H1 & _ & H3). split.
  - apply (H1 sample_open).
    + vm_compute. reflexivity.
    + vm_compute. discriminate.
  - apply (H3 sample_open); vm_compute; reflexivity.
Defined.

Lemma dispatch_not_connected_witness :
  socket_open sample_connecting = false /\
  trace (sendMessage sample_connecting) =
    trace sample_connecting ++ [Alert (lit "WebSocket not connected!")] /\
  messages (sendMessage sample_connecting) = messages sample_connecting.
Proof.
  assert (H : socket_open sample_connecting = false) by (vm_compute; reflexivity).
  split; [exact H|].
  destruct (dispatch_not_connected sample_connecting H) as (_ & Ht & _ & Hm & _).
  split; [exact Ht|exact Hm].
Defined.

Lemma blank_dispatch_is_noop_witness :
  sendMessage sample_blank = sample_blank /\
  Forall (fun d => d <> []) (sent_frames (trace sample_open)).
Proof.
  split.
  - apply (proj1 blank_dispatch_is_noop sample_blank); vm_compute; reflexivity.
  - apply (proj2 blank_dispatch_is_noop sample_open). apply sample_reachable.
Defined.

Lemma identity_resolution_witness :
  creation_requests (trace (run (step (init None ∅) Mount) [Typing (lit "x")]))
    = 1%nat /\
  conversationId
    (step (run (step (init None ∅) Mount) [Typing (lit "x")])
          (Settle 0 (Created 7))) = Some (Num 7).
Proof.
  destruct (identity_resolution_at_session_start None ∅) as [H1 H2].
  split.
  - apply (H1 [Typing (lit "x")]).
  - apply (H2 [Typing (lit "x")] 0%nat 7).
    + vm_compute. reflexivity.
    + vm_compute. reflexivity.
    + eexists. vm_compute. repeat split; reflexivity.
Defined.

Lemma cached_value_witness :
  conversationId
    (step (init None {[ lit "conversationId" := lit "abc" ]}) Mount) = Some NaN.
Proof.
  destruct (cached_value_is_parsed_not_validated None
              {[ lit "conversationId" := lit "abc" ]} (lit "abc"))
    as (_ & _ & _ & H & _).
  - vm_compute. reflexivity.
  - vm_compute. discriminate.
  - apply (H 97%N (lit "bc")); vm_compute; (reflexivity || discriminate).
Defined.

Lemma inbound_frames_witness :
  messages (run sample_open (List.map (WsMessage 0) [lit "a"; lit "b"])) =
  messages sample_open ++
    [{| id := None; sender := bot; content := lit "a" |};
     {| id := None; sender := bot; content := lit "b" |}].
Proof.
  apply (inbound_frames_in_order sample_open 0 [lit "a"; lit "b"]).
  - apply sample_reachable.
  - vm_compute. reflexivity.
Defined.

Lemma history_load_witness :
  messages (step sample_open
              (Settle 1 (Messages [{| m_id := 1; m_sender := lit "user";
                                      m_content := lit "hi" |}]))) =
  [{| id := Some 1; sender := user; content := lit "hi" |}].
Proof.
  apply (history_load_replaces_log sample_open 1
           [{| m_id := 1; m_sender := lit "user"; m_content := lit "hi" |}]).
  - eexists. vm_compute. repeat split; reflexivity.
  - reflexivity.
Defined.

Lemma history_failure_witness :
  messages (step sample_open (Settle 1 Rejected)) = messages sample_open /\
  trace (step sample_open (Settle 1 Rejected)) =
    trace sample_open
      ++ [ConsoleError (lit "Failed to fetch conversation messages:")].
Proof.
  destruct (history_failure_leaves_log sample_open 1) as (Hm & Ht & _).
  - apply sample_reachable.
  - eexists. vm_compute. repeat split; reflexivity.
  - split; [exact Hm|exact Ht].
Defined.

Lemma log_is_append_only_witness :
  messages sample_open `prefix_of`
  messages (run sample_open [WsMessage 0 (lit "yo"); Send; Settle 1 Rejected]).
Proof.
  apply (log_is_append_only sample_open
           [WsMessage 0 (lit "yo"); Send; Settle 1 Rejected]).
  repeat constructor.
Defined.

Lemma teardown_rule_witness :
  teardown_discipline None (trace sample_open) = Some (cleanup sample_open) /\
  (live_count sample_open <= 1)%nat /\
  trace (step sample_open (Rebind (Some (Num 9)))) =
    trace sample_open ++ [SetConversationId (Some (Num 9))]
      ++ cleanup_events (Some 0%nat)
      ++ history_events sample_open (Some (Num 9))
      ++ socket_events sample_open (Some (Num 9)) /\
  length (sockets (step sample_open (Rebind None))) = 1%nat /\
  live_count (step sample_open Unmount) = 0%nat.
Proof.
  destruct (teardown_rule sample_open (sample_reachable _))
    as (Hd & Hl & _ & _ & Hre & Hun & _).
  split; [exact Hd|]. split; [exact Hl|]. split; [|split].
  - apply (Hre (Some (Num 9))); vm_compute; (reflexivity || discriminate).
  - apply (Hre None); vm_compute; (reflexivity || discriminate).
  - apply Hun. vm_compute. reflexivity.
Defined.

(** * Beyond the stated claims *)

From Stdlib Require DecimalPos.

(** ** [parseInt] reads back what [String] wrote *)

Lemma lit_String (a : ascii) (s : string) :
  lit (String a s) = N_of_ascii a :: lit s.
Proof. done. Qed.

Lemma lit_string_of_uint (d : Decimal.uint) :
  lit (NilEmpty.string_of_uint d) = uint_units d.
Proof. induction d; simpl; rewrite ?lit_String, ?IHd; done. Qed.

Lemma digits_value_digit (acc : option Z) (c : code_unit) (l : jsstring) :
  is_digit c = true ->
  digits_value acc (c :: l) =
  digits_value (Some (10 * default 0 acc + Z.of_N (c - 48))) l.
Proof. intros H. simpl. by rewrite H. Qed.

Lemma digits_value_end (acc : option Z) (rest : jsstring) :
  ends_number rest = true -> digits_value acc rest = acc.
Proof.
  destruct rest as [|c rest]; [done|]. simpl.
  by destruct (is_digit c).
Qed.

Lemma digits_value_acc (d : Decimal.uint) (acc : positive) (rest : jsstring) :
  ends_number rest = true ->
  digits_value (Some (Z.pos acc)) (uint_units d ++ rest) =
  Some (Z.pos (Pos.of_uint_acc d acc)).
Proof.
  intros Hrest. revert acc.
  induction d; intros acc; simpl uint_units; simpl app;
    [by apply digits_value_end|..];
    rewrite digits_value_digit by done; simpl Pos.of_uint_acc;
    rewrite <- IHd; f_equal; f_equal;
    unfold default, from_option, Datatypes.id; vm_compute (Z.of_N _); lia.
Qed.

Lemma digits_value_uint (d : Decimal.uint) (rest : jsstring) :
  ends_number rest = true ->
  digits_value (Some 0) (uint_units d ++ rest) =
  Some (Z.of_N (Pos.of_uint d)).
Proof.
  intros Hrest.
  induction d; simpl uint_units; simpl app;
    [by apply digits_value_end|..];
    rewrite digits_value_digit by done;
    unfold default, from_option, Datatypes.id;
    vm_compute (10 * 0 + Z.of_N (_ - 48));
    [exact IHd|..];
    simpl Pos.of_uint; cbn [Z.of_N]; by apply digits_value_acc.
Qed.

Lemma digits_value_to_uint (p : positive) (rest : jsstring) :
  ends_number rest = true ->
  digits_value None (uint_units (Pos.to_uint p) ++ rest) = Some (Z.pos p).
Proof.
  intros Hrest.
  pose proof (digits_value_uint (Pos.to_uint p) rest Hrest) as H.
  rewrite DecimalPos.Unsigned.of_to in H. etrans; [|exact H].
  destruct (Pos.to_uint p) eqn:E; simpl uint_units; simpl app;
    [by apply DecimalPos.Unsigned.to_uint_nonnil in E|..];
    by rewrite !digits_value_digit.
Qed.

Lemma digit_not_blank (c : code_unit) :
  is_digit c = true ->
  is_white_space c = false /\ (c =? 45)%N = false /\ (c =? 43)%N = false.
Proof.
  unfold is_digit, is_white_space.
  intros [H1%N.leb_le H2%N.leb_le]%andb_true_iff.
  rewrite !(proj2 (N.eqb_neq c _)) by lia.
  rewrite (proj2 (N.leb_gt _ c)) by lia. done.
Qed.

Lemma trimStart_blank (blank s : jsstring) :
  Forall (fun c => is_white_space c = true) blank ->
  trimStart (blank ++ s) = trimStart s.
Proof. induction 1 as [|c b Hc _ IH]; [done|]. simpl. by rewrite Hc. Qed.

Lemma parseInt10_blank (blank s : jsstring) :
  Forall (fun c => is_white_space c = true) blank ->
  parseInt10 (blank ++ s) = parseInt10 s.
Proof. intros Hb. unfold parseInt10. by rewrite trimStart_blank. Qed.

Lemma parseInt10_digit (c : code_unit) (r : jsstring) :
  is_digit c = true ->
  parseInt10 (c :: r) =
  match digits_value None (c :: r) with
  | Some v => Num v
  | None => NaN
  end.
Proof.
  intros (Hw & Hm & Hp)%digit_not_blank. unfold parseInt10.
  simpl trimStart. rewrite Hw, Hm, Hp. simpl orb. cbv iota.
  destruct (digits_value None (c :: r)) as [v|]; [|done].
  f_equal; lia.
Qed.

Lemma parseInt10_minus (r : jsstring) :
  parseInt10 (45%N :: r) =
  match digits_value None r with
  | Some v => Num (- v)
  | None => NaN
  end.
Proof.
  unfold parseInt10. simpl trimStart. cbv iota beta.
  change ((45 =? 45)%N) with true. simpl orb. cbv iota.
  destruct (digits_value None r) as [v|]; [|done].
  f_equal; lia.
Qed.

Lemma uint_units_head (d : Decimal.uint) :
  d <> Decimal.Nil ->
  exists c r, uint_units d = c :: r /\ is_digit c = true.
Proof. destruct d; [done|..]; intros _; simpl; eauto. Qed.

Lemma String_nat (p : positive) :
  String_ (Num (Z.pos p)) = uint_units (Pos.to_uint p) /\
  String_ (Num (Z.neg p)) = 45%N :: uint_units (Pos.to_uint p).
Proof.
  pose proof (DecimalPos.Unsigned.to_uint_nonnil p) as Hnn.
  unfold String_, Z.to_int, NilZero.string_of_int, NilZero.string_of_uint.
  rewrite lit_String, <- lit_string_of_uint.
  by destruct (Pos.to_uint p).
Qed.

Lemma parseInt10_reads_String (z : Z) (blank rest : jsstring) :
  Forall (fun c => is_white_space c = true) blank ->
  ends_number rest = true ->
  parseInt10 (blank ++ String_ (Num z) ++ rest) = Num z.
Proof.
  intros Hb Hrest. rewrite (parseInt10_blank _ _ Hb).
  destruct z as [|p|p].
  - change (String_ (Num 0)) with [48%N]. simpl app.
    rewrite parseInt10_digit by done.
    rewrite digits_value_digit by done. by rewrite digits_value_end.
  - destruct (String_nat p) as [-> _].
    pose proof (digits_value_to_uint p rest Hrest) as Hv.
    destruct (uint_units_head (Pos.to_uint p)) as (c & r & E & Hc);
      [apply DecimalPos.Unsigned.to_uint_nonnil|].
    rewrite E in *. simpl app in *. rewrite parseInt10_digit by done.
    by rewrite Hv.
  - destruct (String_nat p) as [_ ->]. simpl app.
    rewrite parseInt10_minus, (digits_value_to_uint p rest Hrest). done.
Qed.

(** The text [String] writes for an identifier is not empty. *)
Lemma String_nonempty (n : number) : String_ n <> [].
Proof.
  destruct n as [|[|p|p]]; [done|done|..].
  - destruct (String_nat p) as [-> _].
    destruct (uint_units_head (Pos.to_uint p)) as (c & r & -> & _);
      [apply DecimalPos.Unsigned.to_uint_nonnil|done].
  - destruct (String_nat p) as [_ ->]. done.
Qed.


(** ** What [trim] keeps and what it drops *)

Lemma trimStart_split (s : jsstring) :
  exists a, s = a ++ trimStart s /\
            Forall (fun c => is_white_space c = true) a.
Proof.
  induction s as [|c s (a & IH & Ha)]; [by exists []|]. simpl.
  destruct (is_white_space c) eqn:E.
  - exists (c :: a). split; [simpl; by rewrite <- IH|by constructor].
  - by exists [].
Qed.

Lemma trimStart_fixed (s : jsstring) :
  match s with c :: _ => is_white_space c = false | [] => True end ->
  trimStart s = s.
Proof. destruct s as [|c s]; [done|]. simpl. by intros ->. Qed.

Lemma trimStart_all_blank (s : jsstring) :
  Forall (fun c => is_white_space c = true) s -> trimStart s = [].
Proof. induction 1 as [|c s Hc _ IH]; [done|]. simpl. by rewrite Hc. Qed.

Lemma trimEnd_split (s : jsstring) :
  exists b, s = trimEnd s ++ b /\
            Forall (fun c => is_white_space c = true) b.
Proof.
  unfold trimEnd. destruct (trimStart_split (rev s)) as (a & E & Ha).
  exists (rev a). split.
  - rewrite <- rev_app_distr, <- E. by rewrite rev_involutive.
  - apply Forall_forall. intros c Hc%list_elem_of_In%in_rev.
    rewrite Forall_forall in Ha. by apply Ha, list_elem_of_In.
Qed.

Lemma trimEnd_last (s : jsstring) (l : jsstring) (c : code_unit) :
  trimEnd s = l ++ [c] -> is_white_space c = false.
Proof.
  unfold trimEnd. intros H.
  apply (f_equal (@rev _)) in H. rewrite rev_involutive, rev_app_distr in H.
  simpl in H. by apply trimStart_head in H.
Qed.

Lemma trimEnd_fixed (s : jsstring) :
  (forall l c, s = l ++ [c] -> is_white_space c = false) -> trimEnd s = s.
Proof.
  intros H. unfold trimEnd. rewrite trimStart_fixed; [apply rev_involutive|].
  destruct (rev s) as [|c r] eqn:E; [done|].
  apply (H (rev r) c). rewrite <- (rev_involutive s), E. done.
Qed.

Lemma trim_split (s : jsstring) :
  exists a b, s = a ++ trim s ++ b /\
     Forall (fun c => is_white_space c = true) a /\
     Forall (fun c => is_white_space c = true) b.
Proof.
  destruct (trimStart_split s) as (a & Ea & Ha).
  destruct (trimEnd_split (trimStart s)) as (b & Eb & Hb).
  exists a, b. unfold trim. by rewrite <- Eb.
Qed.

Lemma trim_empty_iff (s : jsstring) :
  trim s = [] <-> Forall (fun c => is_white_space c = true) s.
Proof.
  split.
  - intros E. destruct (trim_split s) as (a & b & Hs & Ha & Hb).
    rewrite E in Hs. rewrite Hs. by apply Forall_app.
  - intros H. unfold trim. by rewrite trimStart_all_blank.
Qed.

(** X3.  [trim] returns a segment of its argument: what is cut off on
    either side is white space only, and what is kept neither starts nor
    ends with white space; trimming again changes nothing, and the result
    is empty exactly for the strings made of white space only. *)
Theorem trim_keeps_the_core (s : jsstring) :
  (exists a b, s = a ++ trim s ++ b /\
     Forall (fun c => is_white_space c = true) a /\
     Forall (fun c => is_white_space c = true) b) /\
  (forall c r, trim s = c :: r -> is_white_space c = false) /\
  (forall l c, trim s = l ++ [c] -> is_white_space c = false) /\
  trim (trim s) = trim s /\
  (trim s = [] <-> Forall (fun c => is_white_space c = true) s).
Proof.
  pose proof (trim_split s) as Hseg.
  assert (Hhead : forall c r, trim s = c :: r -> is_white_space c = false)
    by apply trim_head.
  assert (Hlast : forall l c, trim s = l ++ [c] -> is_white_space c = false).
  { unfold trim. intros l c. apply trimEnd_last. }
  split; [done|]. split; [done|]. split; [done|]. split.
  - unfold trim at 1. rewrite trimStart_fixed.
    + by apply trimEnd_fixed.
    + destruct (trim s) as [|c r] eqn:E; [done|]. by apply (Hhead c r).
  - apply trim_empty_iff.
Qed.

(** X4.  With the socket open, [sendMessage] leaves the page as it is
    exactly when the input consists of white space only (the empty input
    included); any other input is echoed and sent. *)
Theorem dispatch_is_noop_iff_blank (p : Page) :
  socket_open p = true ->
  (sendMessage p = p <-> Forall (fun c => is_white_space c = true) (input p)).
Proof.
  intros (ws & Hs & Hr)%socket_open_inv.
  rewrite (sendMessage_open p ws Hs Hr).
  pose proof (trim_empty_iff (input p)) as Hiff.
  destruct (truthy (trim (input p))) eqn:Ht.
  - apply truthy_nonempty in Ht. split.
    + intros E. apply (f_equal (fun q => length (trace q))) in E.
      cbn in E. rewrite !length_app in E. cbn in E. lia.
    + intros H%Hiff. done.
  - apply truthy_empty in Ht. split; [|done]. intros _. by apply Hiff.
Qed.

(** ** The addresses the page talks to *)

Lemma strip_prefix_spec (p s r : jsstring) :
  strip_prefix p s = Some r <-> s = p ++ r.
Proof.
  revert s. induction p as [|a p IH]; intros s; simpl.
  - split; [by intros [= ->]|by intros ->].
  - destruct s as [|b s]; [done|].
    destruct (N.eqb_spec a b) as [->|Hne].
    + rewrite IH. split; [by intros ->|by intros [= ->]].
    + split; [done|]. intros [= ? _]. done.
Qed.

(** X5.  The socket address is the base address with a leading ["http"]
    replaced by ["ws"] (so ["https"] becomes ["wss"]); a base that does not
    start with ["http"], in that exact case, is used as it is. *)
Theorem replace_http_ws_spec (s : jsstring) :
  (forall rest, s = lit "http" ++ rest ->
     replace_http_ws s = lit "ws" ++ rest) /\
  ((forall rest, s <> lit "http" ++ rest) -> replace_http_ws s = s) /\
  (forall rest, s = lit "https" ++ rest ->
     replace_http_ws s = lit "wss" ++ rest).
Proof.
  unfold replace_http_ws. split; [|split].
  - intros rest E. apply strip_prefix_spec in E. by rewrite E.
  - intros H. destruct (strip_prefix (lit "http") s) as [r|] eqn:E; [|done].
    apply strip_prefix_spec in E. by apply H in E.
  - intros rest ->.
    assert (E : lit "https" ++ rest = lit "http" ++ (115%N :: rest)) by done.
    apply strip_prefix_spec in E. by rewrite E.
Qed.

Lemma resolve_baseUrl_nonempty (env : option jsstring) :
  resolve_baseUrl env <> [].
Proof.
  unfold resolve_baseUrl. destruct env as [s|]; [|done].
  destruct (truthy s) eqn:E; [by apply truthy_nonempty|done].
Qed.

Lemma handle_baseUrl (i : Input) (p : Page) : baseUrl (handle i p) = baseUrl p.
Proof. unfold handle. destruct (phase p); split_input i p; crush_page. Qed.

Lemma step_baseUrl (p : Page) (i : Input) : baseUrl (step p i) = baseUrl p.
Proof.
  unfold step. pose proof (commit_frame (handle i p)) as (_&_&_&_&_&->).
  apply handle_baseUrl.
Qed.

Lemma url_under_snoc (base : jsstring) (tr : list Event) (e : Event) :
  Forall (url_under base) tr -> url_under base e ->
  Forall (url_under base) (tr ++ [e]).
Proof. intros. apply Forall_app. split; [done|by constructor]. Qed.

Lemma handle_url_under (i : Input) (p : Page) :
  Forall (url_under (baseUrl p)) (trace p) ->
  Forall (url_under (baseUrl p)) (trace (handle i p)).
Proof.
  intros H. unfold handle.
  destruct (phase p); split_input i p; crush_page;
    repeat (apply url_under_snoc; [|by (done || apply prefix_app_r)]);
    done.
Qed.

Lemma commit_url_under (p : Page) :
  Forall (url_under (baseUrl p)) (trace p) ->
  Forall (url_under (baseUrl p)) (trace (commit p)).
Proof.
  intros H. unfold commit. destruct (phase p); try done.
  destruct (Object_is _ _); [done|]. rewrite rerun_trace.
  apply Forall_app. split; [done|].
  destruct (cleanup p), (conversationId p); cbn;
    repeat constructor; by apply prefix_app_r.
Qed.

(** X6.  The base address is fixed when the page starts: the configured one
    when it is set and not empty, ["http://127.0.0.1:8000"] otherwise; it
    is never empty and never changes, every request of the session goes to
    an address under it, and every socket to an address under its socket
    form. *)
Theorem every_address_is_under_the_base
    (env : option jsstring) (storage : gmap jsstring jsstring)
    (evs : list Input) :
  let p := run (init env storage) evs in
  baseUrl p = resolve_baseUrl env /\
  resolve_baseUrl env <> [] /\
  (forall s, env = Some s -> s <> [] -> resolve_baseUrl env = s) /\
  (env = None \/ env = Some [] ->
   resolve_baseUrl env = lit "http://127.0.0.1:8000") /\
  Forall (url_under (resolve_baseUrl env)) (trace p).
Proof.
  cbn zeta.
  assert (H : forall p, baseUrl (run p evs) = baseUrl p /\
              (Forall (url_under (baseUrl p)) (trace p) ->
               Forall (url_under (baseUrl p)) (trace (run p evs)))).
  { induction evs as [|i evs IH]; intros p; [done|].
    change (run p (i :: evs)) with (run (step p i) evs).
    destruct (IH (step p i)) as [Hb Ht]. rewrite Hb, step_baseUrl in *.
    split; [done|]. intros Htr. apply Ht. unfold step.
    rewrite <- (handle_baseUrl i p). apply commit_url_under.
    rewrite handle_baseUrl. by apply handle_url_under. }
  destruct (H (init env storage)) as [Hb Ht].
  split; [done|]. split; [apply resolve_baseUrl_nonempty|].
  split; [|split].
  - intros s -> Hs%truthy_nonempty. unfold resolve_baseUrl. by rewrite Hs.
  - by intros [-> | ->].
  - by apply Ht.
Qed.

(** ** Sockets, requests and [socketRef] *)

Lemma history_requests_app (tr tr' : list Event) :
  history_requests (tr ++ tr') =
  (history_requests tr + history_requests tr')%nat.
Proof. unfold history_requests. by rewrite List.filter_app, length_app. Qed.

Arguments history_requests : simpl never.

Ltac count_events :=
  rewrite ?history_requests_app, ?opened_app, ?creation_requests_app,
    ?binds_app, ?length_app, ?length_alter in *;
  unfold history_requests, opened, creation_requests, binds in *;
  cbn in *.

Lemma handle_counts (i : Input) (p : Page) :
  opened (trace (handle i p)) = opened (trace p) /\
  history_requests (trace (handle i p)) = history_requests (trace p) /\
  length (sockets (handle i p)) = length (sockets p) /\
  (length (fetches (handle i p)) + creation_requests (trace p) =
   length (fetches p) + creation_requests (trace (handle i p)))%nat.
Proof.
  unfold handle.
  destruct (phase p); split_input i p; crush_page; count_events;
    repeat split; lia.
Qed.

Lemma handle_deps (i : Input) (p : Page) : deps (handle i p) = deps p.
Proof. unfold handle. destruct (phase p); split_input i p; crush_page. Qed.

Lemma handle_socketRef (i : Input) (p : Page) :
  socketRef (handle i p) = socketRef p.
Proof. unfold handle. destruct (phase p); split_input i p; crush_page. Qed.

Lemma handle_cleanup (i : Input) (p : Page) :
  cleanup (handle i p) = cleanup p \/ cleanup (handle i p) = None.
Proof.
  unfold handle. destruct (phase p); split_input i p; crush_page; eauto.
Qed.

Lemma socket_at_alter (f : WebSocket -> WebSocket) (n : nat)
    (l : list WebSocket) (ws : nat) (u : jsstring) :
  (forall s, url (f s) = url s) ->
  socket_at l ws u -> socket_at (alter f n l) ws u.
Proof.
  intros Hf (s & Hs & Hu). destruct (decide (n = ws)) as [->|Hne].
  - exists (f s). by rewrite list_lookup_alter_eq, Hs, Hf.
  - exists s. by rewrite list_lookup_alter_ne.
Qed.

Lemma url_closing (s : WebSocket) : url (closing s) = url s.
Proof. unfold closing. by destruct (live s). Qed.

Lemma handle_socket_at (i : Input) (p : Page) (k : nat) (u : jsstring) :
  socket_at (sockets p) k u -> socket_at (sockets (handle i p)) k u.
Proof.
  intros H. unfold handle.
  destruct (phase p); split_input i p; crush_page;
    try (by apply socket_at_alter; [|done]).
  all: by apply socket_at_alter; [apply url_closing|].
Qed.

Lemma link_inv_init (env : option jsstring) (storage : gmap jsstring jsstring) :
  link_inv (init env storage).
Proof. by constructor. Qed.

Lemma link_inv_handle (i : Input) (p : Page) :
  link_inv p -> link_inv (handle i p).
Proof.
  intros [L1 L2 L3 L4 L5].
  destruct (handle_counts i p) as (Ho & Hh & Hs & Hf).
  constructor.
  - lia.
  - lia.
  - lia.
  - rewrite handle_socketRef, L4.
    destruct (sockets (handle i p)) eqn:E1, (sockets p) eqn:E2;
      simpl in *; (done || lia || (f_equal; lia)).
  - intros ws Hc. rewrite handle_socketRef, handle_deps.
    destruct (handle_cleanup i p) as [Hcl|Hcl]; rewrite Hcl in Hc; [|done].
    destruct (L5 ws Hc) as (Hr & cid & Hd & Hat).
    split; [done|]. exists cid. split; [done|].
    unfold socket_url in *. rewrite handle_baseUrl.
    by apply handle_socket_at.
Qed.

Lemma link_inv_commit (p : Page) : link_inv p -> link_inv (commit p).
Proof.
  intros L. unfold commit. destruct (phase p) eqn:Hph; try done.
  destruct (Object_is _ _); [done|]. destruct L as [L1 L2 L3 L4 L5].
  pose proof (rerun_frame (conversationId p) p) as (_&_&_&_&_& Fb).
  pose proof (length_closed_by_cleanup (cleanup p) (sockets p)) as Hlen.
  constructor; rewrite ?rerun_trace, ?rerun_sockets, ?rerun_fetches,
    ?rerun_socketRef, ?rerun_cleanup, ?rerun_deps.
  - destruct (cleanup p), (conversationId p); count_events; lia.
  - destruct (cleanup p), (conversationId p); count_events; lia.
  - destruct (cleanup p), (conversationId p); count_events; lia.
  - destruct (conversationId p) as [cid|].
    + rewrite <- Hlen.
      destruct (closed_by_cleanup (cleanup p) (sockets p)) as [|s l];
        simpl; [done|]. rewrite length_app. simpl. f_equal. lia.
    + rewrite app_nil_r, L4. revert Hlen.
      generalize (closed_by_cleanup (cleanup p) (sockets p)).
      intros l2 Hlen. destruct (sockets p), l2; simpl in *;
        (done || lia || (f_equal; lia)).
  - intros ws. destruct (conversationId p) as [cid|]; [|done].
    intros [= <-]. split; [done|]. exists cid. split; [done|].
    eexists. rewrite <- Hlen. rewrite lookup_app_r by lia.
    rewrite Nat.sub_diag. split; [done|]. cbn.
    unfold socket_url. by rewrite Fb.
Qed.

Lemma link_inv_run (evs : list Input) (p : Page) :
  link_inv p -> link_inv (run p evs).
Proof.
  revert p. induction evs as [|i evs IH]; intros p H; [done|].
  apply IH. by apply link_inv_commit, link_inv_handle.
Qed.

Lemma reachable_link_inv (p : Page) : reachable p -> link_inv p.
Proof.
  intros (env & storage & evs & ->). apply link_inv_run, link_inv_init.
Qed.

Lemma step_sockets_length (p : Page) (i : Input) :
  (length (sockets p) <= length (sockets (step p i)))%nat.
Proof.
  unfold step. destruct (handle_counts i p) as (_ & _ & <- & _).
  generalize (handle i p). intros q. unfold commit.
  destruct (phase q); try done. destruct (Object_is _ _); [done|].
  rewrite rerun_sockets, length_app, length_closed_by_cleanup. lia.
Qed.

Lemma run_sockets_length (evs : list Input) (p : Page) :
  (length (sockets p) <= length (sockets (run p evs)))%nat.
Proof.
  revert p. induction evs as [|i evs IH]; intros p; [done|].
  change (run p (i :: evs)) with (run (step p i) evs).
  etrans; [apply (step_sockets_length p i)|apply IH].
Qed.


(** X8.  [socketRef.current] is null until the first socket is created and
    from then on always holds the socket created last; it is never set back
    to null, not by the cleanup, not when the identifier is taken away, and
    not when the view is dismissed. *)
Theorem socketRef_holds_the_latest_socket (p : Page) :
  reachable p ->
  (socketRef p = None <-> sockets p = []) /\
  (forall ws, socketRef p = Some ws -> S ws = length (sockets p)) /\
  (forall evs, socketRef p <> None -> socketRef (run p evs) <> None).
Proof.
  intros Hr. pose proof (li_ref p (reachable_link_inv p Hr)) as H.
  split; [|split].
  - rewrite H. by destruct (sockets p).
  - intros ws. rewrite H. destruct (sockets p); [done|].
    intros [= <-]. simpl. lia.
  - intros evs Hne.
    pose proof (li_ref _ (reachable_link_inv _ (reachable_run p evs Hr))) as H'.
    pose proof (run_sockets_length evs p) as Hlen.
    rewrite H'. rewrite H in Hne.
    destruct (sockets p); [done|]. destruct (sockets (run p evs)); [|done].
    simpl in Hlen. lia.
Qed.

Lemma open_socket_is_bound (p : Page) :
  reachable p -> socket_open p = true ->
  exists ws cid,
    socketRef p = Some ws /\ readyState_of ws p = Some OPEN /\
    phase p = Mounted /\ conversationId p = Some cid /\
    socket_at (sockets p) ws (socket_url p cid).
Proof.
  intros Hr (ws & Hs & Ho)%socket_open_inv.
  pose proof (reachable_inv p Hr) as [I Hc].
  pose proof (reachable_link_inv p Hr) as L.
  assert (Hcl : cleanup p = Some ws).
  { unfold readyState_of in Ho.
    destruct (sockets p !! ws) as [s|] eqn:E; [|done].
    simpl in Ho. injection Ho as Ho.
    apply (inv_live p I ws s E). unfold live. by rewrite Ho. }
  assert (Hph : phase p = Mounted).
  { destruct (phase p) eqn:E; [|done|].
    - by rewrite (inv_dismissed p I) in Hcl by (by left).
    - by rewrite (inv_dismissed p I) in Hcl by (by right). }
  destruct (li_bound p L ws Hcl) as (_ & cid & Hd & Hat).
  exists ws, cid. rewrite <- (Hc Hph). done.
Qed.

(** X9.  Whenever the guard of [sendMessage] passes, the page is mounted,
    it has an identifier, and the socket of [socketRef] is the one that was
    opened for that identifier; a message that is not blank is sent on that
    socket. *)
Theorem frames_go_to_the_current_conversation (p : Page) :
  reachable p -> socket_open p = true ->
  exists ws cid,
    phase p = Mounted /\ conversationId p = Some cid /\
    socketRef p = Some ws /\
    (exists s, sockets p !! ws = Some s /\
       url s = replace_http_ws (baseUrl p)
                 ++ lit "/ws/chat?conversation_id=" ++ String_ cid) /\
    (trim (input p) <> [] ->
     trace (sendMessage p) =
       trace p ++ [ConsoleLog (lit "Sending user message:");
                   WsSend ws (trim (input p))]).
Proof.
  intros Hr Ho.
  destruct (open_socket_is_bound p Hr Ho) as (ws & cid & Hs & Hop & Hph & Hc & Hat).
  exists ws, cid. repeat split; try done.
  intros Ht%truthy_nonempty. rewrite (sendMessage_open p ws Hs Hop), Ht.
  cbn. by rewrite <- app_assoc.
Qed.

(** ** The identifier across reloads *)

Lemma step_localStorage_created (p : Page) (f : nat) (n : Z) :
  pending p f OnCreated ->
  localStorage (step p (Settle f (Created n))) =
  <[lit "conversationId" := String_ (Num n)]> (localStorage p).
Proof.
  intros Hp. unfold step.
  pose proof (commit_frame (handle (Settle f (Created n)) p))
    as (_ & _ & _ & -> & _).
  by rewrite (handle_created p f n Hp).
Qed.


(** ** What the page writes to storage *)

Lemma handle_storage (i : Input) (p : Page) :
  (forall k, k <> lit "conversationId" ->
     localStorage (handle i p) !! k = localStorage p !! k) /\
  (localStorage (handle i p) = localStorage p \/
   exists f n, i = Settle f (Created n) /\
     localStorage (handle i p) =
       <[lit "conversationId" := String_ (Num n)]> (localStorage p)).
Proof.
  unfold handle.
  destruct (phase p); split_input i p; crush_page;
    (split; [intros k Hk; by rewrite ?lookup_insert_ne|eauto]).
Qed.

Lemma step_storage (p : Page) (i : Input) :
  localStorage (step p i) = localStorage (handle i p).
Proof. unfold step. apply commit_frame. Qed.


(** ** Frames sent and messages echoed, over a session *)

Arguments echoed : simpl never.

Lemma echoed_snoc (l : list Message) (m : Message) :
  echoed (l ++ [m]) = echoed l ++ (if is_echo_b m then [content m] else []).
Proof.
  unfold echoed. rewrite List.filter_app, List.map_app. simpl.
  by destruct (is_echo_b m).
Qed.

Lemma handle_echo_sync (i : Input) (p : Page) :
  is_history_load i = false ->
  sent_frames (trace p) = echoed (messages p) ->
  sent_frames (trace (handle i p)) = echoed (messages (handle i p)).
Proof.
  intros Hi H. unfold handle.
  destruct (phase p); split_input i p; try done; crush_page;
    rewrite ?echoed_snoc, ?sent_frames_app, H; cbn;
    rewrite ?app_nil_r; done.
Qed.

Lemma commit_sent_frames (p : Page) :
  sent_frames (trace (commit p)) = sent_frames (trace p).
Proof.
  unfold commit. destruct (phase p); try done.
  destruct (Object_is _ _); [done|].
  rewrite rerun_trace, sent_frames_app.
  pose proof (opened_rerun_events (cleanup p) p (conversationId p))
    as (_ & _ & _ & ->). apply app_nil_r.
Qed.


(** ** A session that never gets an identifier *)

Lemma inert_mount (env : option jsstring) (storage : gmap jsstring jsstring) :
  cached storage = false -> inert storage (step (init env storage) Mount).
Proof.
  unfold cached. intros Hc. unfold step, handle. cbn.
  unfold identity_effect, getItem. cbn.
  destruct (storage !! lit "conversationId") as [s|]; [rewrite Hc|];
    cbn; constructor; cbn; try done; by repeat constructor.
Qed.

Lemma only_creation_lookup (p : Page) (f : nat) (rq : Fetch) :
  only_creation p -> fetches p !! f = Some rq -> chain rq = OnCreated.
Proof.
  unfold only_creation. rewrite Forall_forall. intros H Hf.
  apply H. by apply list_elem_of_lookup_2 in Hf.
Qed.

Lemma only_creation_settle (p : Page) (f : nat) :
  only_creation p -> Forall (fun rq => chain rq = OnCreated)
                       (alter settled_now f (fetches p)).
Proof.
  unfold only_creation. rewrite !Forall_forall. intros H rq Hin.
  apply list_elem_of_lookup in Hin as [k Hk].
  destruct (decide (f = k)) as [->|Hne].
  - rewrite list_lookup_alter_eq in Hk.
    destruct (fetches p !! k) as [r0|] eqn:E; [|done]. simplify_eq/=.
    apply H. by apply list_elem_of_lookup_2 in E.
  - rewrite list_lookup_alter_ne in Hk by done.
    apply H. by apply list_elem_of_lookup_2 in Hk.
Qed.

Lemma inert_handle (storage : gmap jsstring jsstring) (i : Input) (p : Page) :
  gives_no_identifier i = true -> inert storage p -> inert storage (handle i p).
Proof.
  intros Hi [J1 J2 J3 J4 J5 J6 J7 J8 J9 J10]. unfold handle.
  destruct (phase p) eqn:Hph; [done| |];
    destruct i as [| |f r|ws|ws data|ws|ws|text| |v]; try done;
    try (unfold readyState_of; rewrite J4, lookup_nil; cbn;
         (constructor; rewrite ?Hph; done));
    try ((constructor; rewrite ?Hph; done)).
  all: try (destruct (fetches p !! f) as [rq|] eqn:Hf;
            [|(constructor; rewrite ?Hph; done)];
            rewrite (only_creation_lookup p f rq J7 Hf);
            destruct (settled rq); [(constructor; rewrite ?Hph; done)|];
            destruct r; try done; try ((constructor; rewrite ?Hph; done));
            constructor; cbn; rewrite ?Hph, ?history_requests_app,
              ?sent_frames_app, ?J9, ?J10; try done;
            by apply only_creation_settle).
  - (* Unmount *)
    unfold run_cleanup, seq.
    destruct (cleanup p); constructor; cbn;
      rewrite ?J4, ?history_requests_app, ?sent_frames_app, ?J9, ?J10;
      done.
  - (* Typing *) constructor; cbn; rewrite ?Hph; done.
  - (* Send *)
    unfold sendMessage. rewrite J5. constructor; cbn;
      rewrite ?Hph, ?history_requests_app, ?sent_frames_app, ?J9, ?J10; done.
Qed.

Lemma inert_committed (storage : gmap jsstring jsstring) (p : Page) :
  inert storage p -> commit p = p.
Proof.
  intros J. apply commit_committed. intros _.
  by rewrite (inert_id _ _ J), (inert_deps _ _ J).
Qed.


(** ** When the effects run again *)

Lemma handle_phase_mounted (i : Input) (p : Page) :
  phase (handle i p) = Mounted -> phase p = Mounted \/ phase p = Initial.
Proof.
  destruct (phase p) eqn:E; eauto. intros H. exfalso. revert H.
  unfold handle. rewrite E. split_input i p; crush_page; by rewrite E.
Qed.

Lemma step_same_identifier (p : Page) (i : Input) :
  reachable p -> conversationId (handle i p) = conversationId p ->
  step p i = handle i p.
Proof.
  intros [I Hc]%reachable_inv Hid. unfold step. apply commit_committed.
  intros Hph. rewrite handle_deps, Hid.
  destruct (handle_phase_mounted i p Hph) as [Hm|Hi]; [by apply Hc|].
  rewrite (inv_initial_deps p I Hi).
  by destruct (inv_initial p I Hi) as (_ & _ & _ & ->).
Qed.

(** X13.  The second and the third effect run again only when the
    identifier changes: a turn of the event loop that leaves the
    identifier as it was (typing, sending, a frame, a failure, a history
    response, an update to the same value) requests no history and opens
    no socket. *)
Theorem effects_rerun_only_on_change (p : Page) (i : Input) :
  reachable p -> conversationId (handle i p) = conversationId p ->
  history_requests (trace (step p i)) = history_requests (trace p) /\
  opened (trace (step p i)) = opened (trace p) /\
  length (sockets (step p i)) = length (sockets p) /\
  conversationId (step p i) = conversationId p.
Proof.
  intros Hr Hid. rewrite (step_same_identifier p i Hr Hid).
  destruct (handle_counts i p) as (Ho & Hh & Hs & _). done.
Qed.

(** ** The handlers of the socket that only log *)

(** X14.  [onopen], [onerror] and [onclose] only write to the console:
    when the transport reports that a socket opened, failed or closed, the
    log, the input, the identifier, [socketRef], storage and the requests
    are untouched, no socket is added, the address of every socket stays,
    and all the trace gains is console output. *)
Theorem socket_notices_only_log (p : Page) (i : Input) :
  reachable p -> is_transport_notice i = true ->
  messages (step p i) = messages p /\
  input (step p i) = input p /\
  conversationId (step p i) = conversationId p /\
  socketRef (step p i) = socketRef p /\
  localStorage (step p i) = localStorage p /\
  fetches (step p i) = fetches p /\
  List.map url (sockets (step p i)) = List.map url (sockets p) /\
  exists out, trace (step p i) = trace p ++ out /\
              forallb is_console out = true.
Proof.
  intros Hr Hi.
  assert (H : messages (handle i p) = messages p /\
    input (handle i p) = input p /\
    conversationId (handle i p) = conversationId p /\
    socketRef (handle i p) = socketRef p /\
    localStorage (handle i p) = localStorage p /\
    fetches (handle i p) = fetches p /\
    List.map url (sockets (handle i p)) = List.map url (sockets p) /\
    exists out, trace (handle i p) = trace p ++ out /\
                forallb is_console out = true).
  { assert (Hurl : forall r k (l : list WebSocket),
              List.map url (alter (with_readyState r) k l) = List.map url l).
    { intros r k l. revert k. induction l as [|s l IH]; intros [|k]; simpl;
        try done. f_equal. apply IH. }
    unfold handle.
    destruct i as [| |f r|ws|ws data|ws|ws|text| |v]; try done;
      destruct (readyState_of ws p) as [[]|]; cbn;
      rewrite ?Hurl, <- ?app_assoc;
      repeat split; try done;
      (by exists [] ; rewrite app_nil_r) || (eexists; split; [done|done]). }
  destruct H as (H1 & H2 & H3 & H4 & H5 & H6 & H7 & H8).
  by rewrite (step_same_identifier p i Hr H3).
Qed.

(** ** The Enter key *)

(** X15.  Only the key ["Enter"] dispatches.  Any other key leaves the page
    and the default action of the key alone; Enter suppresses the default
    and does what the Send button does in each of its three cases: the
    alert when the socket is not open, nothing when the input is blank,
    and otherwise the echo, the frame and the cleared input. *)
Theorem enter_key_dispatches (key : jsstring) (p : Page) :
  (key <> lit "Enter" -> handleKeyDown key p = (false, p)) /\
  (key = lit "Enter" ->
   fst (handleKeyDown key p) = true /\
   (socket_open p = false ->
    snd (handleKeyDown key p) = emit (Alert (lit "WebSocket not connected!")) p) /\
   (socket_open p = true -> trim (input p) = [] ->
    snd (handleKeyDown key p) = p) /\
   (socket_open p = true -> trim (input p) <> [] ->
    messages (snd (handleKeyDown key p)) =
      messages p ++ [{| id := None; sender := user;
                        content := trim (input p) |}] /\
    sent_frames (trace (snd (handleKeyDown key p))) =
      sent_frames (trace p) ++ [trim (input p)] /\
    input (snd (handleKeyDown key p)) = [])).
Proof.
  unfold handleKeyDown. split.
  - intros Hk. by rewrite bool_decide_eq_false_2.
  - intros ->. rewrite bool_decide_eq_true_2 by done. cbn [fst snd].
    split; [done|]. split; [|split].
    + intros Ho. by rewrite (sendMessage_closed p Ho).
    + intros (ws & Hs & Hr)%socket_open_inv Ht%truthy_empty.
      by rewrite (sendMessage_open p ws Hs Hr), Ht.
    + intros (ws & Hs & Hr)%socket_open_inv Ht%truthy_nonempty.
      rewrite (sendMessage_open p ws Hs Hr), Ht. cbn.
      by rewrite !sent_frames_app, <- app_assoc.
Qed.

(** ** The view *)

Lemma String_head (n : number) :
  exists c r, String_ n = c :: r /\ c <> 40%N.
Proof.
  destruct n as [|[|p|p]].
  - by exists 78%N, (lit "aN").
  - by exists 48%N, [].
  - destruct (String_nat p) as [-> _].
    destruct (uint_units_head (Pos.to_uint p)) as (c & r & -> & Hc);
      [apply DecimalPos.Unsigned.to_uint_nonnil|].
    exists c, r. split; [done|]. by intros ->.
  - destruct (String_nat p) as [_ ->]. by eexists _, _.
Qed.

Lemma render_rows (l : list Message) (k : nat) (m : Message) :
  l !! k = Some m ->
  imap render_message l !! k = Some (render_message k m).
Proof. intros H. by rewrite list_lookup_imap, H. Qed.

(** X16.  The view follows the state.  The line of the identifier reads
    ["(loading...)"] exactly while there is no identifier.  An empty log
    shows the empty-state text; otherwise there is one row per message, in
    the order of the log, keyed by its position, showing the content, with
    user messages at the end of the row and bot messages at its start.  The
    input box shows the input; after a dispatch that goes out, the box is
    empty and the last row is the text sent, at the end of its row. *)
Theorem view_follows_state (p : Page) :
  (conversationId p = None <->
   conversation_line (render p) = lit "Conversation ID: (loading...)") /\
  (messages p = [] <->
   log_view (render p) = EmptyState (lit "No messages yet. Say hello!")) /\
  (messages p <> [] ->
   exists rows, log_view (render p) = Bubbles rows /\
     length rows = length (messages p) /\
     forall k m, messages p !! k = Some m ->
       exists b, rows !! k = Some b /\
         bubble_key b = k /\ bubble_text b = content m /\
         (sender m = user -> row_className b = lit "mb-2 flex justify-end") /\
         (sender m = bot -> row_className b = lit "mb-2 flex justify-start")) /\
  input_value (render p) = input p /\
  (socket_open p = true -> trim (input p) <> [] ->
   input_value (render (sendMessage p)) = [] /\
   exists rows, log_view (render (sendMessage p)) = Bubbles rows /\
     last rows =
       Some {| bubble_key := length (messages p);
               row_className := lit "mb-2 flex justify-end";
               bubble_className :=
                 lit "rounded px-3 py-2 max-w-xs bg-blue-500 text-white";
               bubble_text := trim (input p) |}).
Proof.
  split; [|split; [|split; [|split]]].
  - unfold render. cbn. split; [by intros ->|].
    destruct (conversationId p) as [n|]; [|done].
    intros H.
    change (lit "Conversation ID: (loading...)")
      with (lit "Conversation ID: " ++ lit "(loading...)") in H.
    apply app_inv_head in H.
    destruct (String_head n) as (c & r & E & Hc). rewrite E in H.
    by injection H as -> _.
  - unfold render. cbn. destruct (messages p); [done|]. split; done.
  - intros Hne. unfold render. cbn.
    destruct (messages p) as [|m0 l] eqn:E; [done|]. cbn [length Nat.ltb Nat.leb].
    eexists. split; [done|]. split; [by rewrite length_imap|].
    intros k m Hk. exists (render_message k m).
    split; [by apply render_rows|]. cbn. repeat split; by intros ->.
  - done.
  - intros (ws & Hs & Hr)%socket_open_inv Ht%truthy_nonempty.
    rewrite (sendMessage_open p ws Hs Hr), Ht. unfold render. cbn.
    split; [done|]. rewrite length_app, Nat.add_comm. cbn.
    eexists. split; [done|]. rewrite imap_app. cbn.
    rewrite last_snoc. by rewrite Nat.add_0_r.
Qed.

(** ** From the input box to the socket *)

Lemma step_Typing (p : Page) (text : jsstring) :
  committed p -> phase p = Mounted -> step p (Typing text) = setInput text p.
Proof.
  intros Hc Hph. unfold step, handle. rewrite Hph.
  apply commit_committed. intros _. by apply Hc.
Qed.

(** X17.  What is typed is what goes out, once.  On a mounted page with an
    open socket, typing a text that is not blank and clicking Send appends
    the trimmed text to the log as a user message, sends it as one frame
    and empties the box; a second click right after changes nothing more. *)
Theorem typed_text_is_sent_once (p : Page) (text : jsstring) :
  reachable p -> phase p = Mounted -> socket_open p = true ->
  trim text <> [] ->
  let p' := run p [Typing text; Send] in
  messages p' =
    messages p ++ [{| id := None; sender := user; content := trim text |}] /\
  sent_frames (trace p') = sent_frames (trace p) ++ [trim text] /\
  input p' = [] /\
  run p [Typing text; Send; Send] = p'.
Proof.
  intros [_ Hc]%reachable_inv Hph (ws & Hs & Hr)%socket_open_inv
    Ht%truthy_nonempty. cbn zeta.
  change (run p [Typing text; Send; Send])
    with (step (run p [Typing text; Send]) Send).
  change (run p [Typing text; Send]) with (step (step p (Typing text)) Send).
  rewrite (step_Typing p text Hc Hph).
  rewrite step_Send by done.
  rewrite (sendMessage_open (setInput text p) ws) by done.
  cbn [input setInput set_input]. rewrite Ht.
  rewrite step_Send by done.
  rewrite (sendMessage_open _ ws) by done. cbn.
  rewrite !sent_frames_app, <- app_assoc. done.
Qed.

(** ** The further statements at concrete sessions *)



Lemma dispatch_is_noop_iff_blank_witness :
  sendMessage sample_blank = sample_blank <->
  Forall (fun c => is_white_space c = true) (input sample_blank).
Proof.
  apply (dispatch_is_noop_iff_blank sample_blank). vm_compute. reflexivity.
Defined.


Lemma socketRef_latest_witness :
  (socketRef sample_open = None <-> sockets sample_open = []) /\
  (forall ws, socketRef sample_open = Some ws ->
     S ws = length (sockets sample_open)) /\
  (forall evs, socketRef sample_open <> None ->
     socketRef (run sample_open evs) <> None).
Proof.
  apply (socketRef_holds_the_latest_socket sample_open).
  apply sample_reachable.
Defined.

Lemma frames_go_to_the_current_conversation_witness :
  exists ws cid,
    phase sample_open = Mounted /\ conversationId sample_open = Some cid /\
    socketRef sample_open = Some ws /\
    (exists s, sockets sample_open !! ws = Some s /\
       url s = replace_http_ws (baseUrl sample_open)
                 ++ lit "/ws/chat?conversation_id=" ++ String_ cid) /\
    (trim (input sample_open) <> [] ->
     trace (sendMessage sample_open) =
       trace sample_open ++ [ConsoleLog (lit "Sending user message:");
                             WsSend ws (trim (input sample_open))]).
Proof.
  apply (frames_go_to_the_current_conversation sample_open).
  - apply sample_reachable.
  - vm_compute. reflexivity.
Defined.



Lemma effects_rerun_only_on_change_witness :
  history_requests (trace (step sample_open (Rebind (Some (Num 7))))) =
    history_requests (trace sample_open) /\
  opened (trace (step sample_open (Rebind (Some (Num 7))))) =
    opened (trace sample_open) /\
  length (sockets (step sample_open (Rebind (Some (Num 7))))) =
    length (sockets sample_open) /\
  conversationId (step sample_open (Rebind (Some (Num 7)))) =
    conversationId sample_open.
Proof.
  apply (effects_rerun_only_on_change sample_open (Rebind (Some (Num 7)))).
  - apply sample_reachable.
  - vm_compute. reflexivity.
Defined.

Lemma socket_notices_only_log_witness :
  messages (step sample_open (WsFailed 0)) = messages sample_open /\
  input (step sample_open (WsFailed 0)) = input sample_open /\
  conversationId (step sample_open (WsFailed 0)) = conversationId sample_open /\
  socketRef (step sample_open (WsFailed 0)) = socketRef sample_open /\
  localStorage (step sample_open (WsFailed 0)) = localStorage sample_open /\
  fetches (step sample_open (WsFailed 0)) = fetches sample_open /\
  List.map url (sockets (step sample_open (WsFailed 0)))
    = List.map url (sockets sample_open) /\
  exists out, trace (step sample_open (WsFailed 0)) = trace sample_open ++ out /\
              forallb is_console out = true.
Proof.
  apply (socket_notices_only_log sample_open (WsFailed 0)).
  - apply sample_reachable.
  - reflexivity.
Defined.

Lemma typed_text_is_sent_once_witness :
  messages (run sample_open [Typing (lit " hi "); Send]) =
    messages sample_open
      ++ [{| id := None; sender := user; content := trim (lit " hi ") |}] /\
  sent_frames (trace (run sample_open [Typing (lit " hi "); Send])) =
    sent_frames (trace sample_open) ++ [trim (lit " hi ")] /\
  input (run sample_open [Typing (lit " hi "); Send]) = [] /\
  run sample_open [Typing (lit " hi "); Send; Send] =
    run sample_open [Typing (lit " hi "); Send].
Proof.
  apply (typed_text_is_sent_once sample_open (lit " hi ")).
  - apply sample_reachable.
  - vm_compute. reflexivity.
  - vm_compute. reflexivity.
  - vm_compute. discriminate.
Defined.
